(** * bay: the build plugin ([bay/plugins/build.py])

    A shallow embedding of the [build] command and of the two hooks the
    build plugin installs ([pre_start], [post_build]), with the facts the
    specification states about them.

    Python objects become records, the [dict]s that are only looked up
    become [gmap]s, the [set]s become [gset]s, and a [dict] whose iteration
    order is observable ([named_volumes]) is an association list.  Calls
    into the Docker host, the builder and the terminal are recorded as
    events of a trace; their outcomes are supplied by an environment that
    may look at everything that happened before. *)

From Stdlib Require Import Ascii.
From stdpp Require Import strings pretty.
From stdpp Require Import base option countable gmap sets list.

#[local] Set Warnings "-clear-no-such-hyp".

Local Open Scope string_scope.
Local Open Scope list_scope.

(** ** Containers and the application catalog *)

Module Catalog.

(** [bay.containers.Container], restricted to the attributes the build
    plugin reads.  [provides_volume] is
    [extra_data.get("provides-volume", None)]; [named_volumes] keeps the
    insertion order of the Python dict (mount point, volume name). *)
Record Container := mkContainer {
  name : string;
  image_name : string;
  image_tag : string;
  named_volumes : list (string * string);
  provides_volume : option string;
  system : bool
}.

#[global] Instance Container_eq_dec : EqDecision Container.
Proof. solve_decision. Defined.

Definition Container_to_tuple (c : Container) :=
  (name c, image_name c, image_tag c, named_volumes c, provides_volume c, system c).

Definition Container_of_tuple
    (t : string * string * string * list (string * string) * option string * bool) :=
  let '(n, i, g, v, p, s) := t in mkContainer n i g v p s.

#[global] Instance Container_countable : Countable Container.
Proof.
  apply (inj_countable' Container_to_tuple Container_of_tuple).
  by intros [].
Defined.

(** Python truthiness of [extra_data.get("provides-volume", None)]: a
    missing entry and the empty string are both false. *)
Definition truthy (v : option string) : option string :=
  match v with
  | Some "" => None
  | Some s => Some s
  | None => None
  end.

(** The part of the application object ([app]) the plugin consults:
    the container catalog in iteration order, the catalog's
    [build_parent] and [dependencies] queries, the truthiness of
    [options(con).get('in_profile')], and the configured log path. *)
Record App := mkApp {
  containers : list Container;
  build_parent : Container -> option Container;
  dependencies : Container -> list Container;
  in_profile : Container -> bool;
  build_log_path : string
}.

(** [dict.values()] of [named_volumes]. *)
Definition volume_names (c : Container) : list string := (named_volumes c).*2.

(** [_get_providers]: later catalog entries overwrite earlier ones. *)
Definition get_providers_step (providers : gmap string Container) (container : Container)
    : gmap string Container :=
  match truthy (provides_volume container) with
  | Some v => <[v := container]> providers
  | None => providers
  end.

Definition _get_providers (app : App) : gmap string Container :=
  foldl get_providers_step ∅ (containers app).

End Catalog.

Export Catalog.

(** ** Dependency sort *)

Module Sorting.

Section dependency_sort.
Context {A : Type} `{EqDecision A}.
Variable edges : A -> list A.

(** Modelled from the spec: the loop of [dependency_sort] over a list
    of nodes, each visit extending the result of the one before and the
    first [CycleError] ending the loop. *)
Fixpoint visit_each (step : A -> list A -> option (list A))
    (nodes : list A) (result : list A) : option (list A) :=
  match nodes with
  | [] => Some result
  | n :: rest =>
      match step n result with
      | Some result' => visit_each step rest result'
      | None => None
      end
  end.

(** Modelled from the spec: the visit of one node by [dependency_sort],
    depth first: a node already placed is left alone, otherwise its
    dependencies are placed first and then the node itself.  [trail] is
    the path from the root of the visit; meeting a node of the trail
    again is a cycle.  [None] is [CycleError]. *)
Fixpoint visit (fuel : nat) (trail : list A) (n : A) (result : list A)
    : option (list A) :=
  match fuel with
  | O => None
  | S fuel' =>
      if decide (n ∈ result) then Some result
      else if decide (n ∈ trail) then None
      else match visit_each (visit fuel' (n :: trail)) (edges n) result with
           | Some result' => Some (result' ++ [n])
           | None => None
           end
  end.

(** Modelled from the spec: [bay.utils.sorting.dependency_sort], which
    [build.py] imports and whose source is missing.  Following section 4.1:
    the result holds every input node and every node reachable from one
    through [edges] exactly once, each after the nodes it depends on;
    input order breaks ties; a cycle gives [CycleError] ([None]), found
    within [bound] nested visits, the number of nodes of the graph. *)
Definition dependency_sort (bound : nat) (nodes : list A) : option (list A) :=
  visit_each (visit (S bound) []) nodes [].

(** [reach a b]: [b] is [a] or one of its transitive dependencies. *)
Definition reach : relation A := rtc (fun a b => b ∈ edges a).

(** A list that holds the dependencies of each of its nodes. *)
Definition closed (l : list A) : Prop :=
  ∀ a b, a ∈ l → b ∈ edges a → b ∈ l.

(** Every node of the list comes after the nodes it depends on. *)
Definition dependencies_first (l : list A) : Prop :=
  ∀ i x y, l !! i = Some x → y ∈ edges x → y ∈ take i l.

(** No node of the trail has been placed yet. *)
Definition fresh (trail l : list A) : Prop := ∀ t, t ∈ trail → t ∉ l.

(** What a successful visit from the nodes [ns] under [trail] does to
    the result list. *)
Record extends (trail ns acc acc' : list A) : Prop := {
  ext_prefix : acc `prefix_of` acc';
  ext_placed : ∀ n, n ∈ ns → n ∈ acc';
  ext_nodup : NoDup acc → fresh trail acc → NoDup acc' ∧ fresh trail acc';
  ext_sound : ∀ x, x ∈ acc' → x ∈ acc ∨ ∃ n, n ∈ ns ∧ reach n x;
  ext_closed : closed acc → closed acc'
}.

End dependency_sort.

End Sorting.

Export Sorting.

(** ** The [build] command *)

Module Build.

(** [bay.constants.PluginHook], the hooks this file fires or installs. *)
Inductive PluginHook := PRE_START | POST_BUILD | PRE_GROUP_BUILD | POST_GROUP_BUILD.

(** An argument of the command: [ContainerType.Profile] or a container. *)
Inductive Target := Profile | Named (c : Container).

(** What the command does to the outside world, in order. *)
Inductive Event :=
  | EvPull (c : Container) (ok : bool)      (* host.images.pull_image_version *)
  | EvExtraInfo (s : string)                (* task.add_extra_info *)
  | EvRunHooks (h : PluginHook) (cs : list Container)   (* app.run_hooks *)
  | EvBuild (c : Container) (ok : bool)     (* Builder(...).build() *)
  | EvEcho (s : string)                     (* click.echo *)
  | EvEchoErr (s : string)                  (* click.echo(..., err=True) *)
  | EvTaskFinish.                           (* task.finish *)

#[global] Instance Target_eq_dec : EqDecision Target.
Proof. solve_decision. Defined.
#[global] Instance PluginHook_eq_dec : EqDecision PluginHook.
Proof. solve_decision. Defined.
#[global] Instance Event_eq_dec : EqDecision Event.
Proof. solve_decision. Defined.

(** The container an event pulls, if it is a pull. *)
Definition pulled_in (e : Event) : option Container :=
  match e with
  | EvPull c _ => Some c
  | _ => None
  end.

(** The containers whose image a trace tried to pull, in order. *)
Definition pull_attempts (tr : list Event) : list Container := omap pulled_in tr.

(** The collaborators of the command.  A pull or a build answers [false]
    when it raises ([ImagePullFailure], [BuildFailureError]); every answer
    may depend on the events so far, and a build is also given the
    [docker_cache] and [verbose] flags.  [read_log] is the lines of the log
    file as [for line in fh] yields them, [elapsed] is
    [str(end_time - start_time)]; the colour helpers of [bay.cli.colors],
    [click.format_filename] and Python's [str.rstrip], which drops the
    trailing white space of a line as Unicode defines it, are taken as
    given. *)
Record Env := mkEnv {
  pull_image_version : list Event -> Container -> bool;
  builder_build : list Event -> Container -> bool -> bool -> bool;
  read_log : list Event -> list string;
  elapsed : list Event -> string;
  RED : string -> string;
  CYAN : string -> string;
  GREEN : string -> string;
  remove_ansi : string -> string;
  format_filename : string -> string;
  rstrip : string -> string
}.

(** The local variables of [build] that the resolution phases update. *)
Record BuildState := mkState {
  containers_to_build : list Container;
  pulled_containers : gset Container;
  failed_pulls : gset Container;
  ancestors_to_build : list Container;
  trace : list Event
}.

Definition log (e : Event) (st : BuildState) : BuildState :=
  mkState (containers_to_build st) (pulled_containers st) (failed_pulls st)
          (ancestors_to_build st) (trace st ++ [e]).

Definition add_pulled (c : Container) (st : BuildState) : BuildState :=
  mkState (containers_to_build st) ({[c]} ∪ pulled_containers st) (failed_pulls st)
          (ancestors_to_build st) (trace st).

Definition add_failed (c : Container) (st : BuildState) : BuildState :=
  mkState (containers_to_build st) (pulled_containers st) ({[c]} ∪ failed_pulls st)
          (ancestors_to_build st) (trace st).

Definition queue_build (c : Container) (st : BuildState) : BuildState :=
  mkState (containers_to_build st ++ [c]) (pulled_containers st) (failed_pulls st)
          (ancestors_to_build st) (trace st).

Definition append_ancestor (c : Container) (st : BuildState) : BuildState :=
  mkState (containers_to_build st) (pulled_containers st) (failed_pulls st)
          (ancestors_to_build st ++ [c]) (trace st).

Definition insert_ancestor (c : Container) (st : BuildState) : BuildState :=
  mkState (containers_to_build st) (pulled_containers st) (failed_pulls st)
          (c :: ancestors_to_build st) (trace st).

(** The two sets record exactly the pulls of the trace, and no image is
    pulled twice. *)
Record pull_inv (st : BuildState) : Prop := {
  pi_pulled : ∀ c, c ∈ pulled_containers st ↔ EvPull c true ∈ trace st;
  pi_failed : ∀ c, c ∈ failed_pulls st ↔ EvPull c false ∈ trace st;
  pi_once : NoDup (pull_attempts (trace st))
}.

Section build.
Variable app : App.
Variable env : Env.

(** [lambda x: [app.containers.build_parent(x)]]; a container without a
    build parent contributes no node. *)
Definition parent_edges (x : Container) : list Container :=
  option_list (build_parent app x).

Definition node_count : nat := length (containers app).

(** The inner loop of lines 175-177 and 180-182: the providers of the
    named volumes of [c], in mount order. *)
Definition volume_providers (providers : gmap string Container) (c : Container)
    : list Container :=
  omap (fun volume => providers !! volume) (volume_names c).

(** Lines 170-177: what one occurrence of the profile sentinel appends
    to [containers_to_pull]. *)
Definition profile_containers (providers : gmap string Container) : list Container :=
  con ← containers app;
  if in_profile app con || system con
  then con :: volume_providers providers con
  else [].

(** Lines 168-182, one argument of the command. *)
Definition expand_step (providers : gmap string Container)
    (acc : list Container * list Container) (container : Target)
    : list Container * list Container :=
  match container with
  | Profile => (acc.1 ++ profile_containers providers, acc.2)
  | Named c => (acc.1, acc.2 ++ c :: volume_providers providers c)
  end.

(** Lines 168-182: the pair ([containers_to_pull], [containers_to_build]). *)
Definition expand (providers : gmap string Container) (request : list Target)
    : list Container * list Container :=
  foldl (expand_step providers) ([], []) request.

(** Line 186: [containers_to_pull] after the sort over the runtime
    dependencies; [None] is [CycleError]. *)
Definition containers_to_pull (request : list Target) : option (list Container) :=
  dependency_sort (dependencies app) node_count
    (expand (_get_providers app) request).1.

(** Lines 191-204, one container to pull. *)
Definition pull_step (st : BuildState) (container : Container) : BuildState :=
  let ok := pull_image_version env (trace st) container in
  let st := log (EvPull container ok) st in
  if ok then add_pulled container st
  else queue_build container (add_failed container st).

(** Lines 218-240: the walk over [reversed(ancestry)]; the [break] of the
    [else] branch ends the recursion. *)
Fixpoint walk_ancestors (ancestors : list Container) (st : BuildState) : BuildState :=
  match ancestors with
  | [] => st
  | ancestor :: older =>
      if decide (ancestor ∈ failed_pulls st) then
        walk_ancestors older (insert_ancestor ancestor (add_failed ancestor st))
      else if decide (ancestor ∈ pulled_containers st) then
        add_pulled ancestor st
      else
        let ok := pull_image_version env (trace st) ancestor in
        let st := log (EvPull ancestor ok) st in
        if ok then add_pulled ancestor st
        else walk_ancestors older (insert_ancestor ancestor (add_failed ancestor st))
  end.

(** Python's [l[:-1]]. *)
Definition all_but_last {A} (l : list A) : list A := take (length l - 1) l.

(** Lines 216-217.  The sort is given [containers_to_build], the whole
    queue, as the source has it. *)
Definition ancestry (queue : list Container) : option (list Container) :=
  all_but_last <$> dependency_sort parent_edges node_count queue.

(** Lines 209-240: the loop over [containers_to_build]; [inr] is the
    state in which [dependency_sort] raised. *)
Fixpoint resolve_ancestors (recursive : bool) (todo : list Container)
    (st : BuildState) : BuildState + BuildState :=
  match todo with
  | [] => inl st
  | container :: rest =>
      let st := append_ancestor container st in
      if recursive then
        match ancestry (containers_to_build st) with
        | Some chain => resolve_ancestors recursive rest (walk_ancestors (reverse chain) st)
        | None => inr st
        end
      else resolve_ancestors recursive rest st
  end.

(** Lines 243-251. *)
Definition final_order (queued : list Container) : option (list Container) :=
  sorted_ancestors_to_build ← dependency_sort parent_edges node_count queued;
  Some (filter (fun container => container ∈ queued) sorted_ancestors_to_build).

(** Python's [l[-n:]] for [0 < n]. *)
Definition last_n {A} (n : nat) (l : list A) : list A := drop (length l - n) l.

(** Lines 276-279: [lines = lines[-14:] + [line]] for each line read. *)
Definition tail_lines (file : list string) : list string :=
  foldl (fun lines line => last_n 14 lines ++ [line]) [] file.

(** Lines 274-283: what is printed once a build has raised. *)
Definition failure_report (logfile_name : string) (tr : list Event) : list Event :=
  let tr := tr ++ [EvEcho (RED env "Build failed! Last 15 lines of log:")] in
  let lines := tail_lines (read_log env tr) in
  let tr :=
    foldl (fun tr line => tr ++ [EvEcho ("  " +:+ rstrip env (remove_ansi env line))])
          tr lines in
  tr ++ [EvEchoErr ("See full build log at " +:+ format_filename env logfile_name)].

(** Lines 261-283: the loop over the final queue.  The boolean tells
    whether every build succeeded; [false] is [sys.exit(1)]. *)
Fixpoint run_builds (logfile_name : string) (cache verbose : bool)
    (queue : list Container) (tr : list Event) : list Event * bool :=
  match queue with
  | [] => (tr, true)
  | container :: rest =>
      let ok := builder_build env tr container cache verbose in
      let tr := tr ++ [EvBuild container ok] in
      if ok then run_builds logfile_name cache verbose rest tr
      else (failure_report logfile_name tr, false)
  end.

(** Lines 291-295. *)
Definition total_build_time (time_delta_str : string) : string :=
  let time_delta_str :=
    if String.prefix "0:" time_delta_str
    then String.substring 2 (String.length time_delta_str - 2) time_delta_str
    else time_delta_str in
  "Total build time [" +:+ GREEN env time_delta_str +:+ "]".

(** How a run of the command ends. *)
Inductive Outcome :=
  | Done                  (* the command returns *)
  | Exit (code : nat)     (* sys.exit(code) *)
  | CycleError.           (* raised by dependency_sort *)

Record Result := mkResult {
  state : BuildState;
  outcome : Outcome
}.

(** Lines 253-295, from the final queue on. *)
Definition execute (cache verbose : bool) (st : BuildState) (order : list Container)
    : Result :=
  let logfile_name := build_log_path app in
  let tr := trace st ++
    [EvExtraInfo ("Order: " +:+ CYAN env (String.concat ", " (name <$> order)));
     EvRunHooks PRE_GROUP_BUILD order] in
  let '(tr, ok) := run_builds logfile_name cache verbose order tr in
  let st' tr := mkState (containers_to_build st) (pulled_containers st)
                        (failed_pulls st) order tr in
  if ok then
    let tr := tr ++ [EvRunHooks POST_GROUP_BUILD order; EvTaskFinish] in
    mkResult (st' (tr ++ [EvEcho (total_build_time (elapsed env tr))])) Done
  else mkResult (st' tr) (Exit 1).

(** The state on entry to the pull phase. *)
Definition initial_state (queue : list Container) : BuildState :=
  mkState queue ∅ ∅ [] [].

(** [build(app, containers, host, cache, recursive, verbose)]. *)
Definition build (request : list Target) (cache recursive verbose : bool) : Result :=
  let providers := _get_providers app in
  let queue := (expand providers request).2 in
  match containers_to_pull request with
  | None => mkResult (initial_state queue) CycleError
  | Some containers_to_pull =>
      let st := foldl pull_step (initial_state queue) containers_to_pull in
      match resolve_ancestors recursive (containers_to_build st) st with
      | inr st => mkResult st CycleError
      | inl st =>
          match final_order (ancestors_to_build st) with
          | None => mkResult st CycleError
          | Some order => execute cache verbose st order
          end
      end
  end.

End build.

(** The build-ancestor chain of [c] that the comments on lines 207-215
    describe: the containers reached through [build_parent], oldest
    first, [c] itself excluded. *)
Fixpoint build_ancestors (app : App) (fuel : nat) (c : Container) : list Container :=
  match fuel with
  | O => []
  | S fuel' =>
      match build_parent app c with
      | Some parent => build_ancestors app fuel' parent ++ [parent]
      | None => []
      end
  end.

(** The runtime dependencies stay inside the catalog and have no cycle:
    the catalogs on which the sort of line 186 does not raise. *)
Definition runtime_closed (app : App) : Prop :=
  ∀ c d, c ∈ containers app → d ∈ dependencies app c → d ∈ containers app.

Definition runtime_acyclic (app : App) : Prop :=
  ∀ c, ¬ tc (fun a b => b ∈ dependencies app a) c c.

(** A catalog container that the profile sentinel stands for. *)
Definition expanding (app : App) (con : Container) : Prop :=
  con ∈ containers app ∧ (in_profile app con = true ∨ system con = true).

(** The containers the specification lists for the sentinel: those marked
    [in_profile] or [system], and the provider of each named volume one of
    them mounts. *)
Definition profile_seed (app : App) (c : Container) : Prop :=
  expanding app c ∨
  ∃ con volume, expanding app con ∧ volume ∈ volume_names con ∧
                _get_providers app !! volume = Some c.

(** The containers named in a request, each followed by the providers of
    its named volumes. *)
Definition named_with_providers (app : App) (request : list Target) : list Container :=
  t ← request;
  match t with
  | Profile => []
  | Named c => c :: volume_providers (_get_providers app) c
  end.

(** What holds of the state once the pull phase is over, and from then
    on: the sets match the trace, nothing but pulls has happened, every
    queued container was either asked for by name (or provides a volume of
    one that was) or has failed a pull, and the sorted profile containers
    have all been tried. *)
Record resolved (app : App) (request : list Target) (st : BuildState) : Prop := {
  rs_pulls : pull_inv st;
  rs_trace : Forall (fun e => is_Some (pulled_in e)) (trace st);
  rs_queue : ∀ c, c ∈ containers_to_build st →
    c ∈ (expand app (_get_providers app) request).2 ∨ c ∈ failed_pulls st;
  rs_ancestors : ∀ c, c ∈ ancestors_to_build st →
    c ∈ (expand app (_get_providers app) request).2 ∨ c ∈ failed_pulls st;
  rs_attempted : ∀ l c, containers_to_pull app request = Some l →
    c ∈ l → c ∈ pull_attempts (trace st)
}.

End Build.

Export Build.

(** ** The hooks installed by [BuildPlugin.load] *)

Module Hooks.

(** What [inspect_volume] returns; [Labels] is [None] for a JSON null. *)
Record Volume := mkVolume {
  Labels : option (gmap string string)
}.

(** A container instance of a formation. *)
Record Instance := mkInstance {
  instance_name : string;
  container : Container
}.

#[global] Instance Instance_eq_dec : EqDecision Instance.
Proof. solve_decision. Defined.
#[global] Instance Volume_eq_dec : EqDecision Volume.
Proof. solve_decision. Defined.

(** Exceptions that leave a hook.  [HostError] stands for whatever a call
    into the Docker client, the formation code or the garbage collector
    raises that the hook does not catch. *)
Inductive Exception :=
  | ValueError (message : string)
  | BuildFailureError
  | NotFound
  | HostError.

(** Calls a hook makes, in order. *)
Inductive Action :=
  | InspectVolume (volume : string) (found : bool)
  | Build (c : Container)
  | Introspect                  (* FormationIntrospector(host, ...).introspect() *)
  | StopInstances (instances : list Instance)
                                (* remove_instances, FormationRunner(...).run() *)
  | RemoveContainer (name : string)
  | GcContainers
  | RemoveVolume (volume : string) (found : bool)
  | CreateVolume (volume : string) (labels : gmap string string)
  | RunImage (image : string) (volume : string).   (* create, start, wait, remove *)

(** The step of the provisioning sequence that creates the volume. *)
Definition creates_volume (a : Action) : bool :=
  match a with
  | CreateVolume _ _ => true
  | _ => false
  end.

#[global] Instance Action_eq_dec : EqDecision Action.
Proof. solve_decision. Defined.

(** The Docker host as the hooks see it: image name to image [Id],
    volume name to volume details, and the running container instances;
    and, taken as given, the code behind [host] whose source is not part
    of the plugin.  [refuses done call] tells whether [call] raises, with
    something other than a [NotFound] that the hook catches, when the
    provisioning sequence makes it after the calls [done];
    [instances_using_volume running volume] is what
    [formation.get_instances_using_volume(volume)] returns on the
    formation introspected from a host with the instances [running]; and
    [left_running running removed] is what is still running once
    [FormationRunner] has run the formation from which [removed] was
    taken out. *)
Record Host := mkHost {
  images : gmap string string;
  volumes : gmap string Volume;
  running : list Instance;
  refuses : list Action -> Action -> bool;
  instances_using_volume : list Instance -> string -> list Instance;
  left_running : list Instance -> list Instance -> list Instance
}.

Definition set_volumes (vs : gmap string Volume) (host : Host) : Host :=
  mkHost (images host) vs (running host)
         (refuses host) (instances_using_volume host) (left_running host).

Definition set_running (instances : list Instance) (host : Host) : Host :=
  mkHost (images host) (volumes host) instances
         (refuses host) (instances_using_volume host) (left_running host).

(** The result of a hook: the host it leaves, what it did, and the
    exception it raised, if any. *)
Record Run := mkRun {
  host_after : Host;
  actions : list Action;
  raised : option Exception
}.

Section hooks.
Variable app : App.

(** [Builder(host, container, app, ...).build()]: the host after a
    successful build (image built, [POST_BUILD] hooks run), or [None]
    for [BuildFailureError]. *)
Variable builder : Host -> Container -> option Host.

(** Lines 56-74 of [pre_start]: the loop over [named_volumes.items()]. *)
Fixpoint build_missing_volumes (providers : gmap string Container)
    (names : list string) (host : Host) (done : list Action) : Run :=
  match names with
  | [] => mkRun host done None
  | name :: rest =>
      match providers !! name with
      | None => build_missing_volumes providers rest host done
      | Some provider =>
          match volumes host !! name with
          | Some _ =>
              build_missing_volumes providers rest host
                (done ++ [InspectVolume name true])
          | None =>
              let done := done ++ [InspectVolume name false; Build provider] in
              match builder host provider with
              | Some host' => build_missing_volumes providers rest host' done
              | None => mkRun host done (Some BuildFailureError)
              end
          end
      end
  end.

(** [BuildPlugin.pre_start(host, instance, task)]. *)
Definition pre_start (host : Host) (instance : Instance) : Run :=
  match truthy (provides_volume (container instance)) with
  | Some _ =>
      mkRun host []
        (Some (ValueError ("You cannot run a volume-providing container "
                           +:+ name (container instance))))
  | None =>
      build_missing_volumes (_get_providers app)
        (volume_names (container instance)) host []
  end.

(** [should_extract_volume] of [post_build]. *)
Definition should_extract_volume (host : Host) (provides_volume : option string)
    (image_id : string) : bool :=
  match provides_volume with
  | None => false
  | Some v =>
      match volumes host !! v with
      | None => true
      | Some volume_details =>
          let labels := default ∅ (Labels volume_details) in
          bool_decide (labels !! "build_id" ≠ Some image_id)
      end
  end.

(** A sequence of calls into the host, each with what it does to the
    host when it returns.  The first call that raises ends the hook with
    that exception: [post_build] catches nothing but the [NotFound] of
    [inspect_volume] and [remove_volume].  The call that raised is part of
    the record. *)
Fixpoint perform (refused : list Action -> Action -> bool)
    (steps : list (Action * (Host -> Host))) (host : Host) (done : list Action) : Run :=
  match steps with
  | [] => mkRun host done None
  | (call, effect) :: rest =>
      if refused done call then mkRun host (done ++ [call]) (Some HostError)
      else perform refused rest (effect host) (done ++ [call])
  end.

(** Lines 98-139, the calls of the provisioning sequence in order: the
    introspection of the formation; when an instance uses the volume, the
    run of the formation without those instances and the removal of each
    of them; the garbage collection; the removal of the volume, where
    [NotFound] is caught; its creation with the [build_id] label; and the
    run of the image with the volume bound at [/volume/]
    ([create_container], [start], [wait] and [remove_container], taken as
    one call). *)
Definition provisioning (host : Host) (image : string) (v : string)
    (image_id : string) : list (Action * (Host -> Host)) :=
  let instances_to_remove := instances_using_volume host (running host) v in
  let labels : gmap string string := {[ "build_id" := image_id ]} in
  (Introspect, id)
  :: match instances_to_remove with
     | [] => []
     | _ =>
         (StopInstances instances_to_remove,
          set_running (left_running host (running host) instances_to_remove))
         :: ((fun instance => (RemoveContainer (instance_name instance), id))
               <$> instances_to_remove)
     end
  ++ [(GcContainers, id);
      (RemoveVolume v (bool_decide (is_Some (volumes host !! v))),
       fun h => set_volumes (delete v (volumes h)) h);
      (CreateVolume v labels,
       fun h => set_volumes (<[v := mkVolume (Some labels)]> (volumes h)) h);
      (RunImage image v, id)].

(** The calls the sequence makes before the garbage collection; they
    deal with containers and leave images and volumes alone. *)
Definition formation_call (a : Action) : bool :=
  match a with
  | Introspect | StopInstances _ | RemoveContainer _ => true
  | _ => false
  end.

(** Lines 97-139: the body of [if should_extract_volume()]. *)
Definition extract_volume (host : Host) (image : string) (v : string)
    (image_id : string) : Run :=
  perform (refuses host) (provisioning host image v image_id) host [].

(** [BuildPlugin.post_build(host, container, task)]. *)
Definition post_build (host : Host) (c : Container) : Run :=
  match images host !! image_name c with
  | None => mkRun host [] (Some NotFound)
  | Some image_id =>
      let provides_volume := truthy (provides_volume c) in
      if should_extract_volume host provides_volume image_id then
        match provides_volume with
        | Some v => extract_volume host (image_name c) v image_id
        | None => mkRun host [] None
        end
      else mkRun host [] None
  end.

(** The loop of [pre_start] as the specification words it, volume by
    volume in mount order: a volume nobody provides is passed over; a
    provided volume that exists on the host is inspected and nothing is
    built; a provided volume that is missing is inspected, its provider
    is built, and the loop goes on from the host that build leaves. *)
Inductive on_demand (providers : gmap string Container)
    : Host -> list string -> list Action -> Host -> Prop :=
  | od_done host :
      on_demand providers host [] [] host
  | od_unprovided host volume rest done host' :
      providers !! volume = None ->
      on_demand providers host rest done host' ->
      on_demand providers host (volume :: rest) done host'
  | od_exists host volume provider rest done host' :
      providers !! volume = Some provider ->
      is_Some (volumes host !! volume) ->
      on_demand providers host rest done host' ->
      on_demand providers host (volume :: rest)
                (InspectVolume volume true :: done) host'
  | od_built host volume provider built rest done host' :
      providers !! volume = Some provider ->
      volumes host !! volume = None ->
      builder host provider = Some built ->
      on_demand providers built rest done host' ->
      on_demand providers host (volume :: rest)
                (InspectVolume volume false :: Build provider :: done) host'.

End hooks.

End Hooks.

Export Hooks.

(** ** Example catalogs *)

Module Examples.

Definition plain (n : string) : Container :=
  mkContainer n ("registry/" +:+ n) "latest" [] None false.

(** A chain of build parents: [cA] is the parent of [cB], [cB] of [cC]. *)
Definition cA : Container := plain "A".
Definition cB : Container := plain "B".
Definition cC : Container := plain "C".

Definition chain_parent (c : Container) : option Container :=
  if decide (c = cC) then Some cB
  else if decide (c = cB) then Some cA
  else None.

Definition chain_app : App :=
  mkApp [cA; cB; cC] chain_parent (fun _ => []) (fun _ => false)
        "/var/log/bay/build.log".

(** Two containers without build parents. *)
Definition cX : Container := plain "X".


(** The chain together with [cX], which has no build parent. *)
Definition mixed_app : App :=
  mkApp [cA; cB; cC; cX] chain_parent (fun _ => []) (fun _ => false)
        "/var/log/bay/build.log".

(** A profile container [cP] that needs [cD] at run time; [cD] is not in
    the profile, is no system container and provides no volume. *)
Definition cP : Container := plain "P".
Definition cD : Container := plain "D".

Definition profile_app : App :=
  mkApp [cP; cD] (fun _ => None)
        (fun c => if decide (c = cP) then [cD] else [])
        (fun c => bool_decide (c = cP))
        "/var/log/bay/build.log".

(** Two profile containers that mount the volume of one provider. *)
Definition cP1 : Container :=
  mkContainer "P1" "registry/P1" "latest" [("/srv", "data")] None false.
Definition cP2 : Container :=
  mkContainer "P2" "registry/P2" "latest" [("/var/data", "data")] None false.

(** A volume provider, a service mounting its volume, and a container
    whose [provides-volume] entry is the empty string. *)
Definition cV : Container :=
  mkContainer "V" "registry/V" "latest" [] (Some "data") false.
Definition cS : Container :=
  mkContainer "S" "registry/S" "latest" [("/srv", "data")] None false.
Definition cE : Container :=
  mkContainer "E" "registry/E" "latest" [] (Some "") false.

Definition shared_app : App :=
  mkApp [cP1; cP2; cV] (fun _ => None) (fun _ => [])
        (fun c => bool_decide (c = cP1 ∨ c = cP2))
        "/var/log/bay/build.log".

Definition volume_app : App :=
  mkApp [cV; cS; cE] (fun _ => None) (fun _ => []) (fun _ => false)
        "/var/log/bay/build.log".

(** The white space of ASCII: tab to carriage return, the four
    separators and the space. *)
Definition ascii_space (a : ascii) : bool :=
  let n := nat_of_ascii a in
  (Nat.leb 9 n && Nat.leb n 13) || (Nat.leb 28 n && Nat.leb n 32).

Fixpoint ascii_rstrip_chars (l : list ascii) : list ascii :=
  match l with
  | [] => []
  | a :: l' =>
      match ascii_rstrip_chars l' with
      | [] => if ascii_space a then [] else [a]
      | r => a :: r
      end
  end.

(** What [str.rstrip()] gives on a line of ASCII text, which is what the
    logs of the examples hold. *)
Definition ascii_rstrip (s : string) : string :=
  String.string_of_list_ascii (ascii_rstrip_chars (String.list_ascii_of_string s)).

(** An environment whose answers depend on the container only; its log is
    ASCII text. *)
Definition fixed_env (pull build : Container -> bool) (log_lines : list string) : Env :=
  mkEnv (fun _ c => pull c) (fun _ c _ _ => build c) (fun _ => log_lines)
        (fun _ => "0:01:30") id id id id id ascii_rstrip.

(** Every pull fails, and so does the build of [cB]. *)
Definition failing_env (log_lines : list string) : Env :=
  fixed_env (fun _ => false) (fun c => bool_decide (c ≠ cB)) log_lines.

Definition seventeen_lines : list string :=
  (fun n => "line " +:+ pretty n +:+ String "010" "") <$> seq 1 17.

(** The instances that mount the volume, as section 4.4 of the
    specification words [get_instances_using_volume]. *)
Definition mounting (running : list Instance) (volume : string) : list Instance :=
  filter (fun i => volume ∈ volume_names (container i)) running.

(** A runner that stops the removed instances and nothing else. *)
Definition without (running removed : list Instance) : list Instance :=
  filter (fun i => i ∉ removed) running.

(** A host that has the provider's image and no volume, and on which no
    call is refused. *)
Definition fresh_host : Host :=
  mkHost {[ "registry/V" := "sha256:0001" ]} ∅ [mkInstance "S.1" cS]
         (fun _ _ => false) mounting without.

(** A builder that always succeeds and then runs [post_build]. *)
Definition hooked_builder (host : Host) (c : Container) : option Host :=
  Some (host_after (post_build host c)).

End Examples.

(** ** Catalogs on which the sorts succeed *)

Module WellFormed.

(** The build parent of a catalog container is in the catalog, and no
    container is its own build ancestor. *)
Definition parent_closed (app : App) : Prop :=
  ∀ c p, c ∈ containers app → p ∈ parent_edges app c → p ∈ containers app.

Definition parent_acyclic (app : App) : Prop :=
  ∀ c, ¬ tc (fun a b => b ∈ parent_edges app a) c c.

(** The containers a request names are containers of the catalog, as
    [ContainerType] makes them. *)
Definition request_in_catalog (app : App) (request : list Target) : Prop :=
  ∀ c, Named c ∈ request → c ∈ containers app.

End WellFormed.

(** ** Further examples *)

Module MoreExamples.

(** Two containers that name each other as build parent. *)
Definition cL1 : Container := Examples.plain "L1".
Definition cL2 : Container := Examples.plain "L2".

Definition loop_parent (c : Container) : option Container :=
  if decide (c = cL1) then Some cL2
  else if decide (c = cL2) then Some cL1
  else None.

Definition loop_app : App :=
  mkApp [cL1; cL2] loop_parent (fun _ => []) (fun _ => false)
        "/var/log/bay/build.log".

(** A host on which the volume of [Examples.cV] exists. *)
Definition stocked_host : Host :=
  mkHost {[ "registry/V" := "sha256:0001" ]} {[ "data" := mkVolume None ]}
         [mkInstance "S.1" Examples.cS]
         (fun _ _ => false) Examples.mounting Examples.without.

(** The same host with a Docker daemon that refuses to create volumes. *)
Definition stubborn_host : Host :=
  mkHost {[ "registry/V" := "sha256:0001" ]} {[ "data" := mkVolume None ]}
         [mkInstance "S.1" Examples.cS]
         (fun _ call => creates_volume call) Examples.mounting Examples.without.

(** A builder whose builds all fail. *)
Definition broken_builder (host : Host) (c : Container) : option Host := None.

End MoreExamples.

(** ** The elapsed time *)

Module Clock.

(** The character of a decimal digit. *)
Definition digit (d : N) : ascii := ascii_of_N (48 + d).

(** Python's [%02d] for a number below 100. *)
Definition two_digits (n : N) : string :=
  String (digit (n `div` 10)%N) (String (digit (n `mod` 10)%N) "").

(** [str(datetime.timedelta(seconds=n))] for a whole number of seconds
    that is not negative, which is what [end_time - start_time] of lines
    162 and 290 is once the microseconds are replaced by zero: the days, if
    any, then [hours:minutes:seconds] with two digits for the minutes and
    the seconds. *)
Definition str_timedelta (n : N) : string :=
  let days := (n `div` 86400)%N in
  let seconds := (n `mod` 86400)%N in
  let s := pretty (seconds `div` 3600)%N +:+ ":"
           +:+ two_digits ((seconds `div` 60) `mod` 60)%N
           +:+ ":" +:+ two_digits (seconds `mod` 60)%N in
  if (days =? 0)%N then s
  else pretty days +:+ " day" +:+ (if (days =? 1)%N then "" else "s") +:+ ", " +:+ s.

End Clock.

(** ** The plugin classes ([bay/plugins/base.py]) *)

Module Plugins.

(** A plugin class as [PluginMetaclass] sees it: its [__name__] and the
    number [id(self)] that the interpreter gives it. *)
Record PluginClass := mkPluginClass {
  class_name : string;
  class_id : N
}.

(** [PluginMetaclass._orderable_id]: [self.__name__ + str(id(self))]. *)
Definition _orderable_id (self : PluginClass) : string :=
  class_name self +:+ pretty (class_id self).

(** [__gt__], [__lt__], [__eq__], [__ne__]: Python's comparisons of the
    two strings. *)
Definition __gt__ (self other : PluginClass) : bool :=
  String.ltb (_orderable_id other) (_orderable_id self).

Definition __lt__ (self other : PluginClass) : bool :=
  String.ltb (_orderable_id self) (_orderable_id other).

Definition __eq__ (self other : PluginClass) : bool :=
  String.eqb (_orderable_id self) (_orderable_id other).

Definition __ne__ (self other : PluginClass) : bool :=
  negb (String.eqb (_orderable_id self) (_orderable_id other)).

End Plugins.

(** ** The profile commands ([bay/plugins/profile.py]) *)

Module Profiles.

(** The last character of a string. *)
Fixpoint last_char (s : string) : option ascii :=
  match s with
  | "" => None
  | String a "" => Some a
  | String _ s' => last_char s'
  end.

(** One step of [posixpath.join]: a component that starts with a slash
    replaces the path so far; otherwise it is appended, after a slash
    unless the path is empty or ends with one. *)
Definition join_step (path b : string) : string :=
  if String.prefix "/" b then b
  else if bool_decide (path = "" ∨ last_char path = Some "/"%char) then path +:+ b
  else path +:+ "/" +:+ b.

(** [os.path.join(a, *p)] on a POSIX system. *)
Definition path_join (a : string) (p : list string) : string := foldl join_step a p.

(** [s.endswith(suffix)]. *)
Definition endswith (s suffix : string) : bool :=
  bool_decide (String.list_ascii_of_string suffix
                 `suffix_of` String.list_ascii_of_string s).

(** [s.split('.')[0]]: the characters before the first dot. *)
Fixpoint before_dot (s : string) : string :=
  match s with
  | "" => ""
  | String a s' => if Ascii.eqb a "." then "" else String a (before_dot s')
  end.

(** The file system as the commands read it: [os.listdir], [os.path.isfile]
    and the constructor [Profile(path)], which gives the description of the
    profile or raises ([None]). *)
Record Disk := mkDisk {
  listdir : string -> list string;
  isfile : string -> bool;
  load_profile : string -> option string
}.

(** What a command prints: [click.echo] of a string or of a list, and the
    header and rows of the [Table]. *)
Inductive Output :=
  | Echo (s : string)
  | EchoList (l : list string)
  | PrintHeader (columns : list (string * nat))
  | PrintRow (cells : list string).

(** Lines 115-132 of [list_profiles], one file name: the output so far
    and [corrupted_profiles]. *)
Definition list_step (disk : Disk) (profiles_home_dir : string) (verbose : bool)
    (acc : list Output * list string) (filename : string)
    : list Output * list string :=
  if endswith filename ".yaml" then
    let profile_name := before_dot filename in
    match load_profile disk (path_join profiles_home_dir [filename]) with
    | None => (acc.1, acc.2 ++ [profile_name])
    | Some description =>
        (acc.1 ++ [if verbose then PrintRow [profile_name; description]
                   else Echo profile_name],
         acc.2)
    end
  else acc.

(** [list_profiles(app, verbose)], with [app.config['bay']['home']]. *)
Definition list_profiles (disk : Disk) (home : string) (verbose : bool) : list Output :=
  let profiles_home_dir := path_join home ["profiles"] in
  let header :=
    if verbose then [PrintHeader [("PROFILE", 30%nat); ("DESCRIPTION", 50%nat)]]
    else [] in
  let '(out, corrupted_profiles) :=
    foldl (list_step disk profiles_home_dir verbose) (header, [])
          (listdir disk profiles_home_dir) in
  match corrupted_profiles with
  | [] => out
  | _ => out ++ [Echo "These profiles are defined but corrupted and cannot be loaded:";
                 EchoList corrupted_profiles]
  end.

(** [app.user_profile]: a [NullProfile], or a profile with its
    [parent_profile] attribute and the rest of its content. *)
Inductive UserProfile :=
  | NullProfile
  | UserFile (parent_profile : option string) (content : string).

(** What [profile] reads and writes of the application: the home
    directory, the names of [app.profiles], and the user profile. *)
Record ProfileApp := mkProfileApp {
  home : string;
  profiles : list string;
  user_profile : UserProfile
}.

(** The result of [profile]: the application it leaves, what it printed,
    the user profile it saved if it did, and whether the constructor of
    [Profile] raised. *)
Record ProfileRun := mkProfileRun {
  app_after : ProfileApp;
  printed : list Output;
  saved : option UserProfile;
  profile_raised : bool
}.

(** Lines 41-45: one line of the profile stack. *)
Definition stack_line (i : nat) (name : string) : Output :=
  match i with
  | O => Echo name
  | _ => Echo (String.concat "" (replicate i "  ") +:+ "↳ " +:+ name)
  end.

(** [profile(app, name, host)], with the colour helpers as given. *)
Definition profile (RED CYAN : string -> string) (disk : Disk) (app : ProfileApp)
    (name : option string) : ProfileRun :=
  match name with
  | None =>
      mkProfileRun app
        (if bool_decide (1 < length (profiles app))%nat
         then imap stack_line (drop 1 (profiles app))
         else [Echo (RED "No profile selected.")])
        None false
  | Some name =>
      let parent_profile_path :=
        path_join (home app) ["profiles"; name +:+ ".yaml"] in
      if negb (isfile disk parent_profile_path) then
        mkProfileRun app [Echo (RED "Invalid profile name!")] None false
      else
        match load_profile disk parent_profile_path with
        | None => mkProfileRun app [] None true
        | Some _ =>
            let content :=
              match user_profile app with
              | NullProfile => ""
              | UserFile _ content => content
              end in
            let user := UserFile (Some name) content in
            mkProfileRun (mkProfileApp (home app) (profiles app) user)
                         [Echo ("Switching to profile " +:+ CYAN name)]
                         (Some user) false
        end
  end.

End Profiles.

(** * Facts *)

(** ** The dependency sort *)

Section sort_facts.
Context {A : Type} `{EqDecision A}.
Variable edges : A -> list A.

Lemma extends_nil trail acc : extends edges trail [] acc acc.
Proof. split; try done; set_solver. Qed.

Lemma extends_cons trail n ns acc mid acc' :
  extends edges trail [n] acc mid → extends edges trail ns mid acc' →
  extends edges trail (n :: ns) acc acc'.
Proof.
  intros [P1 I1 N1 S1 C1] [P2 I2 N2 S2 C2]. split.
  - by etrans.
  - intros x [->|Hx]%elem_of_cons; [|by auto].
    eapply elem_of_prefix; [|done]. apply I1. set_solver.
  - intros Hnd Hfr. destruct (N1 Hnd Hfr). auto.
  - intros x Hx. destruct (S2 x Hx) as [Hmid|(m & Hm & Hr)].
    + destruct (S1 x Hmid) as [?|(m & Hm & Hr)]; [by left|].
      right. exists m. set_solver.
    + right. exists m. set_solver.
  - auto.
Qed.

Lemma visit_each_extends step trail ns acc acc' :
  (∀ n a a', n ∈ ns → step n a = Some a' → extends edges trail [n] a a') →
  visit_each step ns acc = Some acc' →
  extends edges trail ns acc acc'.
Proof.
  revert acc. induction ns as [|n ns IH]; intros acc Hstep Hrun; simpl in Hrun.
  - injection Hrun as <-. apply extends_nil.
  - destruct (step n acc) as [mid|] eqn:Hn; [|done].
    eapply extends_cons.
    + eapply Hstep; [set_solver|done].
    + apply IH; [|done]. intros m a a' ?. apply Hstep. set_solver.
Qed.

Lemma visit_extends fuel trail n acc acc' :
  visit edges fuel trail n acc = Some acc' → extends edges trail [n] acc acc'.
Proof.
  revert trail n acc acc'.
  induction fuel as [|fuel IH]; intros trail n acc acc' Hrun; simpl in Hrun; [done|].
  destruct (decide (n ∈ acc)) as [Hin|Hnin].
  { injection Hrun as <-. split; try done; set_solver. }
  destruct (decide (n ∈ trail)) as [|Hnt]; [done|].
  destruct (visit_each _ _ _) as [r|] eqn:Hdeps; [|done].
  injection Hrun as <-.
  apply (visit_each_extends _ (n :: trail)) in Hdeps; [|by eauto].
  destruct Hdeps as [P I N S C]. split.
  - etrans; [done|]. by apply prefix_app_r.
  - set_solver.
  - intros Hnd Hfr.
    destruct (N Hnd) as [Hnd' Hfr'].
    { intros t [->|Ht]%elem_of_cons; [done|by apply Hfr]. }
    split.
    + apply NoDup_app. split_and!; [done| |apply NoDup_singleton].
      intros x Hx ->%list_elem_of_singleton. apply (Hfr' n); set_solver.
    + intros t Ht [Hr | ->%list_elem_of_singleton]%elem_of_app; [|done].
      apply (Hfr' t); set_solver.
  - intros x [Hx | ->%list_elem_of_singleton]%elem_of_app.
    + destruct (S x Hx) as [?|(d & Hd & Hr)]; [by left|].
      right. exists n. split; [set_solver|]. by eapply rtc_l.
    + right. exists n. split; [set_solver|]. apply rtc_refl.
  - intros Hc a b [Ha | ->%list_elem_of_singleton]%elem_of_app Hb.
    + apply elem_of_app. left. by apply (C Hc a b).
    + apply elem_of_app. left. by apply I.
Qed.

Lemma closed_reach l a b : closed edges l → a ∈ l → reach edges a b → b ∈ l.
Proof. intros Hc Ha Hr. induction Hr; eauto. Qed.

(** The sort, when it succeeds, lists each node once, and lists exactly
    the input nodes and what they transitively depend on. *)
Lemma dependency_sort_spec bound nodes l :
  dependency_sort edges bound nodes = Some l →
  NoDup l ∧ ∀ x, x ∈ l ↔ ∃ n, n ∈ nodes ∧ reach edges n x.
Proof.
  intros Hrun. unfold dependency_sort in Hrun.
  apply (visit_each_extends _ []) in Hrun;
    [|intros ????; apply visit_extends].
  destruct Hrun as [P I N S C]. split.
  - apply N; [constructor|]. by intros ? ?%elem_of_nil.
  - intros x. split.
    + intros Hx. destruct (S x Hx) as [?|?]; [set_solver|done].
    + intros (n & Hn & Hr). eapply closed_reach; [|by apply I|done].
      apply C. by intros ?? ?%elem_of_nil.
Qed.

Lemma dependency_sort_NoDup bound nodes l :
  dependency_sort edges bound nodes = Some l → NoDup l.
Proof. intros ?%dependency_sort_spec. tauto. Qed.

Lemma visit_each_total (step : A → list A → option (list A)) nodes acc :
  (∀ n a, n ∈ nodes → is_Some (step n a)) →
  is_Some (visit_each step nodes acc).
Proof.
  revert acc. induction nodes as [|n nodes IH]; intros acc Hstep; simpl; [done|].
  destruct (Hstep n acc) as [mid ->]; [set_solver|].
  apply IH. intros m a ?. apply Hstep. set_solver.
Qed.

(** In a graph without cycles whose nodes all belong to [universe], a
    visit that starts with more fuel than [universe] has nodes returns. *)
Lemma visit_total universe fuel trail n acc :
  (∀ a b, a ∈ universe → b ∈ edges a → b ∈ universe) →
  (∀ a, ¬ tc (fun a b => b ∈ edges a) a a) →
  n ∈ universe → NoDup trail → trail ⊆ universe →
  (∀ t, t ∈ trail → tc (fun a b => b ∈ edges a) t n) →
  (length universe < fuel + length trail)%nat →
  is_Some (visit edges fuel trail n acc).
Proof.
  intros Hclosed Hacyclic. revert trail n acc.
  induction fuel as [|fuel IH]; intros trail n acc Hn Hnd Hsub Hpath Hfuel.
  { assert (length trail ≤ length universe)%nat
      by (by apply submseteq_length, NoDup_submseteq).
    simpl in Hfuel. lia. }
  simpl. destruct (decide (n ∈ acc)); [done|].
  destruct (decide (n ∈ trail)) as [Hcycle|Hfresh].
  { destruct (Hacyclic n). by apply Hpath. }
  destruct (visit_each_total (visit edges fuel (n :: trail)) (edges n) acc)
    as [r ->]; [|done].
  intros d a Hd. apply IH.
  - by eapply Hclosed.
  - by constructor.
  - intros t [->|?]%elem_of_cons; [done|by apply Hsub].
  - intros t [->|Ht]%elem_of_cons; [by apply tc_once|].
    eapply tc_r; [by apply Hpath|done].
  - simpl. lia.
Qed.

(** The sort returns on a graph without cycles, given a bound that is at
    least the number of nodes. *)
Lemma dependency_sort_total universe bound nodes :
  (∀ a b, a ∈ universe → b ∈ edges a → b ∈ universe) →
  (∀ a, ¬ tc (fun a b => b ∈ edges a) a a) →
  nodes ⊆ universe → (length universe ≤ bound)%nat →
  is_Some (dependency_sort edges bound nodes).
Proof.
  intros Hclosed Hacyclic Hnodes Hbound. unfold dependency_sort.
  apply visit_each_total. intros n a Hn.
  apply (visit_total universe); try done.
  - by apply Hnodes.
  - constructor.
  - by intros ? ?%elem_of_nil.
  - by intros ? ?%elem_of_nil.
  - simpl. lia.
Qed.

(** The result of the sort lists every node after its dependencies. *)
Lemma visit_each_first step ns acc acc' :
  (∀ n a a', n ∈ ns → step n a = Some a' →
             dependencies_first edges a → dependencies_first edges a') →
  visit_each step ns acc = Some acc' →
  dependencies_first edges acc → dependencies_first edges acc'.
Proof.
  revert acc. induction ns as [|n ns IH]; intros acc Hstep Hrun Hacc; simpl in Hrun.
  - by injection Hrun as <-.
  - destruct (step n acc) as [mid|] eqn:Hn; [|done].
    apply (IH mid); [|done|].
    + intros m a a' ?. apply Hstep. set_solver.
    + apply (Hstep n acc mid); [set_solver|done..].
Qed.

Lemma visit_first fuel trail n acc acc' :
  visit edges fuel trail n acc = Some acc' →
  dependencies_first edges acc → dependencies_first edges acc'.
Proof.
  revert trail n acc acc'.
  induction fuel as [|fuel IH]; intros trail n acc acc' Hrun Hacc; simpl in Hrun; [done|].
  destruct (decide (n ∈ acc)); [by injection Hrun as <-|].
  destruct (decide (n ∈ trail)); [done|].
  destruct (visit_each _ _ _) as [r|] eqn:Hdeps; [|done].
  injection Hrun as <-.
  assert (dependencies_first edges r) as Hr.
  { eapply visit_each_first; [|done..]. intros ?????. by eapply IH. }
  apply (visit_each_extends _ (n :: trail)) in Hdeps;
    [|intros ????; apply visit_extends].
  intros i x y Hx Hy. apply lookup_app_Some in Hx as [Hx|[Hi Hx]].
  - rewrite take_app_le by (by apply Nat.lt_le_incl, lookup_lt_is_Some; eexists).
    by eapply Hr.
  - apply list_lookup_singleton_Some in Hx as [Hi' <-].
    replace i with (length r) by lia. rewrite take_app_length.
    by apply (ext_placed _ _ _ _ _ Hdeps).
Qed.

Lemma dependency_sort_first bound nodes l :
  dependency_sort edges bound nodes = Some l → dependencies_first edges l.
Proof.
  intros Hrun. eapply visit_each_first; [|done|].
  - intros ?????. by eapply visit_first.
  - intros i x y Hi. by rewrite lookup_nil in Hi.
Qed.

(** A list in which dependencies come first holds no node of a cycle. *)
Lemma dependencies_first_acyclic l c :
  dependencies_first edges l → c ∈ l → ¬ tc (fun a b => b ∈ edges a) c c.
Proof.
  intros Hl Hc Hcycle.
  assert (∀ x y, tc (fun a b => b ∈ edges a) x y →
            ∀ i, l !! i = Some x → ∃ j, (j < i)%nat ∧ l !! j = Some y) as Hdown.
  { assert (∀ x y i, y ∈ edges x → l !! i = Some x →
              ∃ j, (j < i)%nat ∧ l !! j = Some y) as Hedge.
    { intros x y i Hy Hx.
      destruct (proj1 (list_elem_of_lookup _ _) (Hl i x y Hx Hy)) as [j Hj].
      apply lookup_take_Some in Hj as [Hj ?]. eauto. }
    induction 1 as [x y Hxy|x y z Hxy _ IH]; intros i Hi; [by eapply Hedge|].
    destruct (Hedge x y i Hxy Hi) as (j & ? & Hj).
    destruct (IH j Hj) as (k & ? & Hk). exists k. split; [lia|done]. }
  apply list_elem_of_lookup in Hc as [i Hi]. revert Hi.
  induction (lt_wf i) as [i _ IH]. intros Hi.
  destruct (Hdown c c Hcycle i Hi) as (j & ? & Hj). by apply (IH j).
Qed.

(** A cycle that can be reached from an input node makes the sort raise. *)
Lemma dependency_sort_cycle bound nodes n c :
  n ∈ nodes → reach edges n c → tc (fun a b => b ∈ edges a) c c →
  dependency_sort edges bound nodes = None.
Proof.
  intros Hn Hr Hcycle.
  destruct (dependency_sort edges bound nodes) as [l|] eqn:Hrun; [|done].
  destruct (dependencies_first_acyclic l c); [|by apply (dependency_sort_spec _ _ _ Hrun); eauto|done].
  by eapply dependency_sort_first.
Qed.

Lemma visit_each_none (step : A → list A → option (list A)) ns acc :
  visit_each step ns acc = None → ∃ n a, n ∈ ns ∧ step n a = None.
Proof.
  revert acc. induction ns as [|n ns IH]; intros acc Hrun; simpl in Hrun; [done|].
  destruct (step n acc) as [mid|] eqn:Hn.
  - destruct (IH mid Hrun) as (m & a & ? & ?). exists m, a. set_solver.
  - exists n, acc. set_solver.
Qed.

(** With fuel for every node of [universe], a visit raises only when it
    meets a cycle. *)
Lemma visit_none universe fuel trail n acc :
  (∀ a b, a ∈ universe → b ∈ edges a → b ∈ universe) →
  n ∈ universe → NoDup trail → trail ⊆ universe →
  (∀ t, t ∈ trail → tc (fun a b => b ∈ edges a) t n) →
  (length universe < fuel + length trail)%nat →
  visit edges fuel trail n acc = None →
  ∃ c, reach edges n c ∧ tc (fun a b => b ∈ edges a) c c.
Proof.
  intros Hclosed. revert trail n acc.
  induction fuel as [|fuel IH]; intros trail n acc Hn Hnd Hsub Hpath Hfuel Hrun.
  { assert (length trail ≤ length universe)%nat
      by (by apply submseteq_length, NoDup_submseteq).
    simpl in Hfuel. lia. }
  simpl in Hrun. destruct (decide (n ∈ acc)); [done|].
  destruct (decide (n ∈ trail)) as [Hcycle|Hfresh].
  { exists n. split; [apply rtc_refl|by apply Hpath]. }
  destruct (visit_each _ _ _) eqn:Hdeps; [done|].
  apply visit_each_none in Hdeps as (d & a & Hd & Hvisit).
  destruct (IH (n :: trail) d a) as (c & Hr & Hc); try done.
  - by eapply Hclosed.
  - by constructor.
  - intros t [->|?]%elem_of_cons; [done|by apply Hsub].
  - intros t [->|Ht]%elem_of_cons; [by apply tc_once|].
    eapply tc_r; [by apply Hpath|done].
  - simpl. lia.
  - exists c. split; [|done]. by eapply rtc_l.
Qed.

(** Given a bound that is at least the number of nodes, the sort raises
    only when a cycle can be reached from an input node. *)
Lemma dependency_sort_none universe bound nodes :
  (∀ a b, a ∈ universe → b ∈ edges a → b ∈ universe) →
  nodes ⊆ universe → (length universe ≤ bound)%nat →
  dependency_sort edges bound nodes = None →
  ∃ n c, n ∈ nodes ∧ reach edges n c ∧ tc (fun a b => b ∈ edges a) c c.
Proof.
  intros Hclosed Hnodes Hbound Hrun. unfold dependency_sort in Hrun.
  apply visit_each_none in Hrun as (n & a & Hn & Hvisit).
  destruct (visit_none universe (S bound) [] n a) as (c & Hr & Hc); try done.
  - by apply Hnodes.
  - constructor.
  - by intros ? ?%elem_of_nil.
  - by intros ? ?%elem_of_nil.
  - simpl. lia.
  - by exists n, c.
Qed.

End sort_facts.

(** ** The resolution phases of [build] *)

Section pull_facts.
Variable app : App.
Variable env : Env.

Lemma pull_attempts_app tr tr' :
  pull_attempts (tr ++ tr') = pull_attempts tr ++ pull_attempts tr'.
Proof. apply omap_app. Qed.

Lemma elem_of_pull_attempts c tr :
  c ∈ pull_attempts tr ↔ ∃ ok, EvPull c ok ∈ tr.
Proof.
  unfold pull_attempts. rewrite list_elem_of_omap. split.
  - intros ([] & He & Hc); simplify_eq/=. eauto.
  - intros [ok Hok]. exists (EvPull c ok). done.
Qed.

Lemma pull_once tr c :
  NoDup (pull_attempts tr) → EvPull c true ∈ tr → EvPull c false ∈ tr → False.
Proof.
  induction tr as [|e tr IH]; intros Hnd Ht Hf; [by apply elem_of_nil in Ht|].
  apply elem_of_cons in Ht as [<-|Ht], Hf as [Hf|Hf]; simplify_eq/=.
  - apply NoDup_cons in Hnd as [Hc _]. apply Hc, elem_of_pull_attempts. eauto.
  - apply NoDup_cons in Hnd as [Hc _]. apply Hc, elem_of_pull_attempts. eauto.
  - apply IH; [|done..]. unfold pull_attempts in *. simpl in Hnd.
    destruct (pulled_in e); [by apply NoDup_cons in Hnd as [_ ?]|done].
Qed.

Lemma pull_inv_disjoint st :
  pull_inv st → pulled_containers st ## failed_pulls st.
Proof.
  intros [Hp Hf Hnd] c ?%Hp ?%Hf. by eapply pull_once.
Qed.

Lemma pull_inv_initial queue : pull_inv (initial_state queue).
Proof. split; simpl; [set_solver..|constructor]. Qed.

(** A pull of an image not pulled before, recorded in the set that
    matches its outcome. *)
Lemma pull_inv_record st c ok (st' : BuildState) :
  pull_inv st → c ∉ pull_attempts (trace st) →
  trace st' = trace st ++ [EvPull c ok] →
  pulled_containers st' =
    (if ok then {[c]} ∪ pulled_containers st else pulled_containers st) →
  failed_pulls st' =
    (if ok then failed_pulls st else {[c]} ∪ failed_pulls st) →
  pull_inv st'.
Proof.
  intros [Hp Hf Hnd] Hc Htr Hps Hfs. split.
  - intros d. rewrite Htr, Hps, elem_of_app, list_elem_of_singleton, <-Hp.
    destruct ok; set_solver.
  - intros d. rewrite Htr, Hfs, elem_of_app, list_elem_of_singleton, <-Hf.
    destruct ok; set_solver.
  - rewrite Htr, pull_attempts_app. simpl.
    apply NoDup_app. split_and!; [done|set_solver|apply NoDup_singleton].
Qed.

Lemma pull_step_inv st c :
  pull_inv st → c ∉ pull_attempts (trace st) → pull_inv (pull_step env st c).
Proof.
  intros Hinv Hc. unfold pull_step.
  destruct (pull_image_version env (trace st) c) eqn:Hok.
  - by eapply (pull_inv_record st c true).
  - by eapply (pull_inv_record st c false).
Qed.

Lemma pull_step_attempts st c :
  pull_attempts (trace (pull_step env st c)) = pull_attempts (trace st) ++ [c].
Proof.
  unfold pull_step. destruct (pull_image_version _ _ _); simpl;
    by rewrite pull_attempts_app.
Qed.

Lemma pull_phase_attempts l st :
  pull_attempts (trace (foldl (pull_step env) st l)) = pull_attempts (trace st) ++ l.
Proof.
  revert st. induction l as [|c l IH]; intros st; simpl.
  - by rewrite app_nil_r.
  - by rewrite IH, pull_step_attempts, <-app_assoc.
Qed.

Lemma pull_phase_inv l st :
  NoDup (pull_attempts (trace st) ++ l) → pull_inv st →
  pull_inv (foldl (pull_step env) st l).
Proof.
  revert st. induction l as [|c l IH]; intros st Hnd Hinv; simpl; [done|].
  apply IH.
  - by rewrite pull_step_attempts, <-app_assoc.
  - apply pull_step_inv; [done|].
    apply NoDup_app in Hnd as (_ & Hd & _). intros ?%Hd. set_solver.
Qed.

Lemma walk_ancestors_inv ancestors st :
  pull_inv st → pull_inv (walk_ancestors env ancestors st).
Proof.
  revert st. induction ancestors as [|a older IH]; intros st Hinv; simpl; [done|].
  destruct (decide (a ∈ failed_pulls st)) as [Hf|Hf].
  { apply IH. destruct Hinv as [Hp Hfl Hnd]. split; simpl; [done| |done].
    intros d. rewrite <-Hfl. set_solver. }
  destruct (decide (a ∈ pulled_containers st)) as [Hp|Hp].
  { destruct Hinv as [Hpl Hfl Hnd]. split; simpl; [|done..].
    intros d. rewrite <-Hpl. set_solver. }
  assert (a ∉ pull_attempts (trace st)) as Hfresh.
  { intros [[] Hok]%elem_of_pull_attempts.
    - by apply Hp, Hinv.
    - by apply Hf, Hinv. }
  destruct (pull_image_version env (trace st) a) eqn:Hok.
  - by eapply (pull_inv_record st a true).
  - apply IH. by eapply (pull_inv_record st a false).
Qed.

(** One step of the walk, for an ancestor that has not been pulled. *)
Lemma walk_ancestors_fail a older st :
  a ∉ failed_pulls st → a ∉ pulled_containers st →
  pull_image_version env (trace st) a = false →
  walk_ancestors env (a :: older) st =
    walk_ancestors env older
      (insert_ancestor a (add_failed a (log (EvPull a false) st))).
Proof.
  intros Hf Hp Hpull. simpl.
  rewrite (decide_False (P := a ∈ failed_pulls st)) by done.
  rewrite (decide_False (P := a ∈ pulled_containers st)) by done.
  by rewrite Hpull.
Qed.


Lemma resolve_ancestors_cons c rest st :
  resolve_ancestors app env true (c :: rest) st =
    match ancestry app (containers_to_build st) with
    | Some chain =>
        resolve_ancestors app env true rest
          (walk_ancestors env (reverse chain) (append_ancestor c st))
    | None => inr (append_ancestor c st)
    end.
Proof. done. Qed.

Lemma resolve_ancestors_inv recursive todo st st' :
  pull_inv st →
  resolve_ancestors app env recursive todo st = inl st' ∨
  resolve_ancestors app env recursive todo st = inr st' →
  pull_inv st'.
Proof.
  revert st. induction todo as [|c todo IH]; intros st Hinv Hrun; simpl in Hrun.
  { destruct Hrun; by simplify_eq. }
  assert (pull_inv (append_ancestor c st)) as Hinv' by (by destruct Hinv).
  destruct recursive; [|by eapply IH].
  simpl in Hrun. destruct (ancestry _ _) as [chain|].
  - eapply IH; [|done]. by apply walk_ancestors_inv.
  - destruct Hrun; by simplify_eq.
Qed.

End pull_facts.

Section resolution_facts.
Variable app : App.
Variable env : Env.
Variable request : list Target.

Lemma foldl_invariant {S X} (P : S → Prop) (f : S → X → S) l s :
  P s → (∀ s x, P s → P (f s x)) → P (foldl f s l).
Proof. revert s. induction l; simpl; auto. Qed.

(** A step that only pulls, only adds to [failed_pulls], leaves
    [containers_to_build] alone and queues only failed ancestors keeps
    the state [resolved]. *)
Lemma resolved_step st st' pulls :
  resolved app request st → pull_inv st' →
  trace st' = trace st ++ pulls → Forall (fun e => is_Some (pulled_in e)) pulls →
  containers_to_build st' = containers_to_build st →
  failed_pulls st ⊆ failed_pulls st' →
  (∀ c, c ∈ ancestors_to_build st' →
        c ∈ ancestors_to_build st ∨ c ∈ failed_pulls st' ∨ c ∈ containers_to_build st) →
  resolved app request st'.
Proof.
  intros [Hinv Htr Hq Ha Hat] Hinv' Htr' Hpulls Hq' Hf' Ha'. split.
  - done.
  - rewrite Htr'. by apply Forall_app.
  - intros c. rewrite Hq'. intros [?|?]%Hq; set_solver.
  - intros c [Hc|[Hc|Hc]]%Ha'.
    + apply Ha in Hc as [?|?]; set_solver.
    + by right.
    + apply Hq in Hc as [?|?]; set_solver.
  - intros l c Hl Hc. rewrite Htr', pull_attempts_app, elem_of_app. left. eauto.
Qed.

Lemma walk_ancestors_resolved ancestors st :
  resolved app request st → resolved app request (walk_ancestors env ancestors st).
Proof.
  revert st. induction ancestors as [|a older IH]; intros st Hres; [done|].
  pose proof (walk_ancestors_inv env [a] st (rs_pulls _ _ _ Hres)) as Hone.
  simpl in *.
  destruct (decide (a ∈ failed_pulls st)).
  { apply IH. eapply (resolved_step st _ []); simpl;
      rewrite ?app_nil_r; try done; [set_solver|].
    intros c [->|?]%elem_of_cons; set_solver. }
  destruct (decide (a ∈ pulled_containers st)).
  { eapply (resolved_step st _ []); simpl; rewrite ?app_nil_r; try done. auto. }
  destruct (pull_image_version env (trace st) a).
  - eapply (resolved_step st _ [EvPull a true]); simpl; try done; [|auto].
    by repeat constructor.
  - apply IH. eapply (resolved_step st _ [EvPull a false]); simpl; try done.
    + by repeat constructor.
    + set_solver.
    + intros c [->|?]%elem_of_cons; set_solver.
Qed.

Lemma walk_ancestors_queue ancestors st :
  containers_to_build (walk_ancestors env ancestors st) = containers_to_build st.
Proof.
  revert st. induction ancestors as [|a older IH]; intros st; simpl; [done|].
  repeat case_decide; simpl; [by rewrite IH|done|].
  destruct (pull_image_version _ _ _); simpl; [done|by rewrite IH].
Qed.

Lemma resolve_ancestors_resolved recursive todo st st' :
  resolved app request st → todo ⊆ containers_to_build st →
  resolve_ancestors app env recursive todo st = inl st' ∨
  resolve_ancestors app env recursive todo st = inr st' →
  resolved app request st'.
Proof.
  revert st. induction todo as [|c todo IH]; intros st Hres Hsub Hrun; simpl in Hrun.
  { destruct Hrun; by simplify_eq. }
  assert (resolved app request (append_ancestor c st)) as Hres'.
  { eapply (resolved_step st _ []); simpl; rewrite ?app_nil_r; try done.
    - by destruct Hres as [[] ? ? ? ?].
    - intros d [?| ->%list_elem_of_singleton]%elem_of_app; [auto|].
      right; right. apply Hsub. set_solver. }
  destruct recursive.
  - simpl in Hrun. destruct (ancestry _ _) as [chain|].
    + eapply IH; [|  |done].
      * by apply walk_ancestors_resolved.
      * rewrite walk_ancestors_queue. simpl. set_solver.
    + destruct Hrun; by simplify_eq.
  - eapply IH; [done| |done]. simpl. set_solver.
Qed.

Lemma pull_phase_resolved l :
  containers_to_pull app request = Some l →
  resolved app request
    (foldl (pull_step env)
           (initial_state (expand app (_get_providers app) request).2) l).
Proof.
  intros Hl. set (queue := (expand _ _ _).2). split.
  - apply pull_phase_inv; [|apply pull_inv_initial].
    simpl. by eapply dependency_sort_NoDup.
  - apply foldl_invariant; [constructor|].
    intros st c Hst. unfold pull_step.
    destruct (pull_image_version _ _ _); simpl;
      (apply Forall_app; split; [done|by repeat constructor]).
  - apply (foldl_invariant (fun st => ∀ c, c ∈ containers_to_build st →
                              c ∈ queue ∨ c ∈ failed_pulls st)); [by left|].
    intros st c Hst d. unfold pull_step.
    destruct (pull_image_version _ _ _); simpl; [by apply Hst|].
    intros [[?|?]%Hst| ->%list_elem_of_singleton]%elem_of_app; set_solver.
  - assert (ancestors_to_build (foldl (pull_step env) (initial_state queue) l) = [])
      as ->; [|by intros ? ?%elem_of_nil].
    apply (foldl_invariant (fun st => ancestors_to_build st = [])); [done|].
    intros st c Hst. unfold pull_step. by destruct (pull_image_version _ _ _).
  - intros l' c ? Hc. simplify_eq. by rewrite pull_phase_attempts.
Qed.

(** The ways a run of [build] can go: [dependency_sort] raises in one of
    its three calls, or the final queue is executed. *)
Lemma build_phases cache recursive verbose :
  ∃ st, resolved app request st ∧
    (build app env request cache recursive verbose = mkResult st CycleError ∨
     ∃ order, final_order app (ancestors_to_build st) = Some order ∧
       build app env request cache recursive verbose
         = execute app env cache verbose st order).
Proof.
  unfold build. destruct (containers_to_pull app request) as [l|] eqn:Hl.
  - pose proof (pull_phase_resolved l Hl) as Hres.
    destruct (resolve_ancestors _ _ _ _ _) as [st|st] eqn:Hrun.
    + assert (resolved app request st) as Hst
        by (eapply resolve_ancestors_resolved; [done..|by left]).
      exists st. split; [done|].
      destruct (final_order _ _) as [order|]; [|by left]. right. eauto.
    + exists st. split; [|by left].
      eapply resolve_ancestors_resolved; [done..|by right].
  - eexists. split; [|by left]. split; simpl.
    + apply pull_inv_initial.
    + constructor.
    + by left.
    + by intros ? ?%elem_of_nil.
    + intros ???. by simplify_eq.
Qed.

End resolution_facts.

(** ** The execution phase of [build] *)

Section execute_facts.
Variable app : App.
Variable env : Env.

Lemma last_n_app_drop {X} (n k : nat) (l l' : list X) :
  (k ≤ length (l ++ l') - n)%nat →
  last_n n (drop k l ++ l') = last_n n (l ++ l').
Proof.
  intros Hn. unfold last_n. rewrite !length_app, length_drop in *.
  destruct (decide (k ≤ length l)%nat) as [Hk|Hk].
  - rewrite <-drop_app_le, drop_drop by done. f_equal. lia.
  - rewrite (drop_ge l k) by lia. simpl. rewrite drop_app_ge by lia.
    f_equal. lia.
Qed.

Lemma tail_lines_from (file acc : list string) :
  (length acc ≤ 15)%nat →
  foldl (fun lines line => last_n 14 lines ++ [line]) acc file
    = last_n 15 (acc ++ file).
Proof.
  revert acc. induction file as [|line file IH]; intros acc Hacc; simpl.
  - unfold last_n. rewrite app_nil_r. by replace (length acc - 15) with 0 by lia.
  - rewrite IH.
    + unfold last_n at 2. rewrite <-app_assoc. apply last_n_app_drop.
      rewrite length_app. simpl. lia.
    + unfold last_n. rewrite length_app, length_drop. simpl. lia.
Qed.

(** The tail loop keeps the last 15 lines of the file, all of them when
    the file is shorter. *)
Lemma tail_lines_last_n file : tail_lines file = last_n 15 file.
Proof. unfold tail_lines. by rewrite tail_lines_from by (simpl; lia). Qed.

Lemma foldl_snoc {X Y} (f : X → Y) (l : list X) (acc : list Y) :
  foldl (fun acc x => acc ++ [f x]) acc l = acc ++ (f <$> l).
Proof.
  revert acc. induction l as [|x l IH]; intros acc; simpl.
  - by rewrite app_nil_r.
  - by rewrite IH, <-app_assoc.
Qed.

Lemma failure_report_shape logfile_name tr :
  let header := tr ++ [EvEcho (RED env "Build failed! Last 15 lines of log:")] in
  failure_report env logfile_name tr =
    header
    ++ ((fun line => EvEcho ("  " +:+ rstrip env (remove_ansi env line)))
          <$> last_n 15 (read_log env header))
    ++ [EvEchoErr ("See full build log at " +:+ format_filename env logfile_name)].
Proof.
  unfold failure_report. simpl.
  by rewrite foldl_snoc, tail_lines_last_n, <-app_assoc.
Qed.

(** The build loop stops at the first build that raises. *)
Lemma run_builds_shape logfile_name cache verbose queue tr :
  (run_builds env logfile_name cache verbose queue tr
     = (tr ++ ((fun c => EvBuild c true) <$> queue), true)) ∨
  (∃ done failing rest, queue = done ++ failing :: rest ∧
     run_builds env logfile_name cache verbose queue tr
       = (failure_report env logfile_name
            (tr ++ ((fun c => EvBuild c true) <$> done) ++ [EvBuild failing false]),
          false)).
Proof.
  revert tr. induction queue as [|c queue IH]; intros tr; simpl.
  { left. by rewrite app_nil_r. }
  destruct (builder_build env tr c cache verbose).
  - destruct (IH (tr ++ [EvBuild c true])) as [->|(done & f & rest & -> & ->)].
    + left. by rewrite <-app_assoc.
    + right. exists (c :: done), f, rest. split; [done|].
      simpl. by rewrite <-app_assoc.
  - right. by exists [], c, queue.
Qed.

(** [execute] either runs the whole queue and returns, or stops at the
    first failing build, prints the report and exits with code 1. *)
Lemma execute_shape cache verbose st order :
  let r := execute app env cache verbose st order in
  let started := trace st ++
    [EvExtraInfo ("Order: " +:+ CYAN env (String.concat ", " (name <$> order)));
     EvRunHooks PRE_GROUP_BUILD order] in
  ancestors_to_build (state r) = order ∧
  containers_to_build (state r) = containers_to_build st ∧
  pulled_containers (state r) = pulled_containers st ∧
  failed_pulls (state r) = failed_pulls st ∧
  ((outcome r = Done ∧
    ∃ time, trace (state r) =
      started ++ ((fun c => EvBuild c true) <$> order)
      ++ [EvRunHooks POST_GROUP_BUILD order; EvTaskFinish; EvEcho time]) ∨
   (outcome r = Exit 1 ∧
    ∃ done failing rest, order = done ++ failing :: rest ∧
      trace (state r) =
        failure_report env (build_log_path app)
          (started ++ ((fun c => EvBuild c true) <$> done)
           ++ [EvBuild failing false]))).
Proof.
  intros r started. subst r. unfold execute. fold started.
  destruct (run_builds_shape (build_log_path app) cache verbose order started)
    as [->|(done & f & rest & Horder & ->)]; simpl.
  - split_and!; try done. left. split; [done|]. eexists.
    by rewrite <-!app_assoc.
  - split_and!; try done. right. split; [done|]. by exists done, f, rest.
Qed.

(** An executed queue is the one handed to [PRE_GROUP_BUILD]. *)
Lemma execute_started cache verbose st order :
  EvRunHooks PRE_GROUP_BUILD order
    ∈ trace (state (execute app env cache verbose st order)).
Proof.
  destruct (execute_shape cache verbose st order)
    as (_ & _ & _ & _ & [(_ & time & ->)|(_ & done & f & rest & _ & ->)]);
    rewrite ?failure_report_shape; set_solver.
Qed.

(** After the resolution phases nothing is pulled any more. *)
Lemma execute_quiet cache verbose st order :
  ∃ quiet,
    trace (state (execute app env cache verbose st order)) = trace st ++ quiet ∧
    Forall (fun e => pulled_in e = None) quiet.
Proof.
  destruct (execute_shape cache verbose st order) as (_ & _ & _ & _ & Htr).
  destruct Htr as [(_ & time & ->)|(_ & done & f & rest & _ & ->)].
  - eexists. rewrite <-!app_assoc. split; [done|].
    repeat first [apply Forall_app; split | apply Forall_cons; split
                 | apply Forall_nil | by apply Forall_fmap, Forall_true | done].
  - rewrite failure_report_shape. eexists. rewrite <-!app_assoc. split; [done|].
    repeat first [apply Forall_app; split | apply Forall_cons; split
                 | apply Forall_nil | by apply Forall_fmap, Forall_true | done].
Qed.

Lemma expand_from providers request acc :
  foldl (expand_step app providers) acc request =
    (acc.1 ++ (t ← request;
               match t with
               | Profile => profile_containers app providers
               | Named _ => []
               end),
     acc.2 ++ (t ← request;
               match t with
               | Profile => []
               | Named c => c :: volume_providers providers c
               end)).
Proof.
  revert acc. induction request as [|t request IH]; intros [to_pull to_build].
  - simpl. by rewrite !app_nil_r.
  - simpl foldl. rewrite IH. destruct t; simpl; by rewrite <-?app_assoc.
Qed.

(** What [expand] queues for building is what the request names. *)
Lemma expand_named request :
  (expand app (_get_providers app) request).2 = named_with_providers app request.
Proof. unfold expand. by rewrite expand_from. Qed.

(** The final queue has no duplicates and holds only containers that
    were queued before the sort. *)
Lemma final_order_spec queued order :
  final_order app queued = Some order →
  NoDup order ∧ ∀ c, c ∈ order → c ∈ queued.
Proof.
  unfold final_order. intros Hrun.
  destruct (dependency_sort _ _ _) as [sorted|] eqn:Hsort; simplify_eq/=.
  split.
  - apply NoDup_filter. by eapply dependency_sort_NoDup.
  - by intros c [? _]%list_elem_of_filter.
Qed.

Lemma only_pulls pulls e :
  Forall (fun e => is_Some (pulled_in e)) pulls → e ∈ pulls → is_Some (pulled_in e).
Proof. rewrite Forall_forall. auto. Qed.

Lemma quiet_attempts quiet :
  Forall (fun e => pulled_in e = None) quiet → pull_attempts quiet = [].
Proof.
  induction 1 as [|e ? He]; [done|].
  unfold pull_attempts in *. simpl. by rewrite He.
Qed.

Lemma quiet_no_pull quiet c ok :
  Forall (fun e => pulled_in e = None) quiet → EvPull c ok ∉ quiet.
Proof. rewrite Forall_forall. intros Hq Hc. by specialize (Hq _ Hc). Qed.

(** A build event of an executed queue is a build of one of its
    containers. *)
Lemma execute_builds cache verbose st order c ok :
  Forall (fun e => is_Some (pulled_in e)) (trace st) →
  EvBuild c ok ∈ trace (state (execute app env cache verbose st order)) →
  c ∈ order.
Proof.
  intros Hpulls.
  destruct (execute_shape cache verbose st order)
    as (_ & _ & _ & _ & [(_ & time & ->)|(_ & done & f & rest & -> & ->)]);
    rewrite ?failure_report_shape;
    rewrite !elem_of_app, !elem_of_cons, !list_elem_of_fmap, ?elem_of_nil;
    intros Hc; decompose [or] Hc; try naive_solver;
    match goal with
    | H : _ ∈ trace st |- _ => by apply (only_pulls _ _ Hpulls) in H as [? [=]]
    end.
Qed.

End execute_facts.

(** ** The pull outcomes of a run *)

(** C8. Whatever the request, the flags and the answers of the host, and
    however the run ends, the set of pulled containers and the set of
    failed pulls of [build] are disjoint.  Both sets only grow, and each
    holds exactly the containers the trace shows a pull of with that
    outcome, so the same is true at every earlier moment of the run: no
    prefix of the trace has a successful and a failed pull of one
    container. *)
Theorem pull_outcomes_disjoint app env request cache recursive verbose :
  let st := state (build app env request cache recursive verbose) in
  pulled_containers st ## failed_pulls st ∧
  (∀ c, c ∈ pulled_containers st ↔ EvPull c true ∈ trace st) ∧
  (∀ c, c ∈ failed_pulls st ↔ EvPull c false ∈ trace st) ∧
  (∀ tr c, tr `prefix_of` trace st → ¬ (EvPull c true ∈ tr ∧ EvPull c false ∈ tr)).
Proof.
  intros st.
  assert (pull_inv st) as Hinv.
  { subst st.
    destruct (build_phases app env request cache recursive verbose)
      as (st & Hres & [->|(order & _ & ->)]); [apply Hres|].
    destruct (execute_shape app env cache verbose st order)
      as (_ & _ & Hp & Hf & _).
    destruct Hres as [[Hpl Hfl Hnd] _ _ _ _].
    destruct (execute_quiet app env cache verbose st order) as (quiet & Hquiet & Hq).
    assert (∀ c ok, EvPull c ok ∈ trace st ++ quiet ↔ EvPull c ok ∈ trace st) as Hsame.
    { intros c ok. rewrite elem_of_app. split; [|by left]. intros [?|Hc]; [done|].
      rewrite Forall_forall in Hq. by specialize (Hq _ Hc). }
    split; rewrite Hquiet.
    - intros c. by rewrite Hp, Hsame.
    - intros c. by rewrite Hf, Hsame.
    - rewrite pull_attempts_app.
      replace (pull_attempts quiet) with (@nil Container); [by rewrite app_nil_r|].
      clear -Hq. induction Hq as [|e ? He]; [done|].
      unfold pull_attempts in *. simpl. by rewrite He. }
  split_and!; [by apply pull_inv_disjoint|apply Hinv..|].
  intros tr c Hpre [Ht Hf]. eapply pull_once; [apply Hinv|..].
  - by eapply elem_of_prefix.
  - by eapply elem_of_prefix.
Qed.

(** ** A failing build *)

(** C6. When a build of the final queue raises [BuildFailureError], the
    command exits with code 1.  Up to the failing build the trace holds the
    pulls, the order line, [PRE_GROUP_BUILD] and the builds that succeeded
    before; after it come the header, the last 15 lines of the log file
    (all its lines when it has fewer), each passed through [remove_ansi]
    and then through [str.rstrip], both collaborators of the environment,
    and indented by two spaces, and the path of the log on the error
    stream, and nothing else: no container later in the queue is built,
    [POST_GROUP_BUILD] is not fired, and the builds already done stay in
    the trace with nothing undoing them. *)
Theorem build_failure_aborts app env request cache recursive verbose failing :
  let r := build app env request cache recursive verbose in
  EvBuild failing false ∈ trace (state r) →
  outcome r = Exit 1 ∧
  ∃ pulls done rest,
    Forall (fun e => is_Some (pulled_in e)) pulls ∧
    ancestors_to_build (state r) = done ++ failing :: rest ∧
    let order := done ++ failing :: rest in
    let header :=
      pulls
      ++ [EvExtraInfo ("Order: " +:+ CYAN env (String.concat ", " (name <$> order)));
          EvRunHooks PRE_GROUP_BUILD order]
      ++ ((fun c => EvBuild c true) <$> done)
      ++ [EvBuild failing false;
          EvEcho (RED env "Build failed! Last 15 lines of log:")] in
    trace (state r) =
      header
      ++ ((fun line => EvEcho ("  " +:+ rstrip env (remove_ansi env line)))
            <$> last_n 15 (read_log env header))
      ++ [EvEchoErr ("See full build log at "
                     +:+ format_filename env (build_log_path app))] ∧
    (∀ c ok, c ∈ rest → EvBuild c ok ∉ trace (state r)) ∧
    (∀ cs, EvRunHooks POST_GROUP_BUILD cs ∉ trace (state r)).
Proof.
  intros r Hfail. subst r.
  destruct (build_phases app env request cache recursive verbose)
    as (st & Hres & [Hb|(order & Horder & Hb)]); rewrite Hb in *; simpl in Hfail.
  { by apply (only_pulls _ _ (rs_trace _ _ _ Hres)) in Hfail as [? [=]]. }
  pose proof (rs_trace _ _ _ Hres) as Hpulls.
  apply final_order_spec in Horder as [Hnd _].
  destruct (execute_shape app env cache verbose st order)
    as (Ha & _ & _ & _ & [(_ & time & Htr)|(Hexit & done & f & rest & -> & Htr)]);
    rewrite Htr in Hfail.
  { exfalso. revert Hfail.
    rewrite !elem_of_app, !elem_of_cons, list_elem_of_fmap, elem_of_nil.
    intros [[Hp|?]|[?|?]]; [|naive_solver..].
    by apply (only_pulls _ _ Hpulls) in Hp as [? [=]]. }
  rewrite failure_report_shape in Htr, Hfail.
  assert (failing = f) as ->.
  { revert Hfail.
    rewrite !elem_of_app, !elem_of_cons, !list_elem_of_fmap, elem_of_nil.
    intros [[[[Hp|?]|[?|?]]|?]|[?|?]]; [|naive_solver..].
    by apply (only_pulls _ _ Hpulls) in Hp as [? [=]]. }
  split; [done|]. exists (trace st), done, rest.
  split; [done|]. split; [done|]. cbv zeta. split_and!.
  - rewrite Htr. by rewrite <-!app_assoc.
  - intros c ok Hc. rewrite Htr.
    apply NoDup_app in Hnd as (_ & Hdone & [Hf _]%NoDup_cons).
    rewrite !elem_of_app, !elem_of_cons, !list_elem_of_fmap, elem_of_nil.
    intros [[[[Hp|?]|[(d & ? & ?)|?]]|?]|[?|?]]; try naive_solver.
    + by apply (only_pulls _ _ Hpulls) in Hp as [? [=]].
    + simplify_eq. apply (Hdone d); set_solver.
  - intros cs. rewrite Htr.
    rewrite !elem_of_app, !elem_of_cons, !list_elem_of_fmap, elem_of_nil.
    intros [[[[Hp|?]|[?|?]]|?]|[?|?]]; try naive_solver.
    by apply (only_pulls _ _ Hpulls) in Hp as [? [=]].
Qed.

Lemma build_failure_aborts_witness :
  outcome (build Examples.chain_app (Examples.failing_env Examples.seventeen_lines)
                 [Named Examples.cC] true true true) = Exit 1.
Proof.
  refine (proj1 (build_failure_aborts Examples.chain_app
                   (Examples.failing_env Examples.seventeen_lines)
                   [Named Examples.cC] true true true Examples.cB _)).
  apply (bool_decide_unpack _). vm_compute. reflexivity.
Defined.

(** ** Pulls and builds *)



(** ** The profile sentinel *)

Section profile_facts.
Variable app : App.

Lemma elem_of_volume_providers providers con c :
  c ∈ volume_providers providers con ↔
  ∃ volume, volume ∈ volume_names con ∧ providers !! volume = Some c.
Proof. unfold volume_providers. by rewrite list_elem_of_omap. Qed.

Lemma elem_of_profile_containers c :
  c ∈ profile_containers app (_get_providers app) ↔ profile_seed app c.
Proof.
  unfold profile_containers, profile_seed, expanding.
  rewrite list_elem_of_bind. split.
  - intros (con & Hc & Hcon).
    destruct (in_profile app con || system con) eqn:Hexp;
      [|by apply elem_of_nil in Hc].
    apply orb_true_iff in Hexp.
    apply elem_of_cons in Hc as [->|Hc]; [by left|].
    apply elem_of_volume_providers in Hc as (v & ? & ?).
    right. by exists con, v.
  - intros [[Hcon Hexp]|(con & v & [Hcon Hexp] & Hv & Hp)].
    + exists c. split; [|done]. apply orb_true_iff in Hexp as ->. set_solver.
    + exists con. split; [|done]. apply orb_true_iff in Hexp as ->.
      apply elem_of_cons. right. apply elem_of_volume_providers. eauto.
Qed.

Lemma elem_of_expand_pull request c :
  c ∈ (expand app (_get_providers app) request).1 ↔
  Profile ∈ request ∧ profile_seed app c.
Proof.
  unfold expand. rewrite expand_from. simpl.
  rewrite list_elem_of_bind, <-elem_of_profile_containers. split.
  - intros ([] & Hc & Ht); [done|by apply elem_of_nil in Hc].
  - intros [? ?]. by exists Profile.
Qed.

Lemma get_providers_from l (providers : gmap string Container) volume c :
  foldl get_providers_step providers l !! volume = Some c →
  providers !! volume = Some c ∨ c ∈ l.
Proof.
  revert providers. induction l as [|d l IH]; intros providers; simpl; [by left|].
  intros [Hc|Hc]%IH; [|set_solver].
  unfold get_providers_step in Hc. destruct (truthy (provides_volume d)) as [v|].
  - apply lookup_insert_Some in Hc as [[_ ->]|[_ Hc]]; [set_solver|by left].
  - by left.
Qed.

(** A provider is a container of the catalog. *)
Lemma get_providers_catalog volume c :
  _get_providers app !! volume = Some c → c ∈ containers app.
Proof. by intros [?|?]%get_providers_from. Qed.

Lemma profile_seed_catalog c : profile_seed app c → c ∈ containers app.
Proof.
  intros [[? _]|(con & v & _ & _ & Hp)]; [done|]. by eapply get_providers_catalog.
Qed.

End profile_facts.

(** C5, as the code has it.  For a request that contains the profile
    sentinel, the list of containers to pull after line 186 has no
    duplicates and holds exactly the containers marked [in_profile] or
    [system], the providers of the named volumes they mount, and every
    container one of these depends on at run time, directly or not.  When
    a cycle of runtime dependencies can be reached from one of them the
    sort raises [CycleError] and there is no list; on a catalog whose
    runtime dependencies stay in the catalog that is the only case in
    which it raises, so that the list exists whenever the dependencies
    have no cycle. *)
Theorem profile_expansion app request :
  Profile ∈ request →
  (∀ l, containers_to_pull app request = Some l →
     NoDup l ∧
     ∀ c, c ∈ l ↔ ∃ s, profile_seed app s ∧ reach (dependencies app) s c) ∧
  ((∃ s c, profile_seed app s ∧ reach (dependencies app) s c ∧
           tc (fun a b => b ∈ dependencies app a) c c) →
     containers_to_pull app request = None) ∧
  (runtime_closed app →
     containers_to_pull app request = None →
     ∃ s c, profile_seed app s ∧ reach (dependencies app) s c ∧
            tc (fun a b => b ∈ dependencies app a) c c) ∧
  (runtime_closed app → runtime_acyclic app →
     is_Some (containers_to_pull app request)).
Proof.
  intros Hprofile. split_and!.
  - intros l [Hnd Hl]%dependency_sort_spec. split; [done|].
    intros c. rewrite Hl. split.
    + intros (s & [_ Hs]%elem_of_expand_pull & Hr). eauto.
    + intros (s & Hs & Hr). exists s. by rewrite elem_of_expand_pull.
  - intros (s & c & Hs & Hr & Hcycle).
    apply (dependency_sort_cycle _ _ _ s c); [|done..].
    by rewrite elem_of_expand_pull.
  - intros Hclosed Hnone.
    apply (dependency_sort_none _ (containers app)) in Hnone
      as (s & c & [_ Hs]%elem_of_expand_pull & Hr & Hcycle); [by eauto|done| |done].
    intros c [_ Hc]%elem_of_expand_pull. by apply profile_seed_catalog.
  - intros Hclosed Hacyclic.
    apply (dependency_sort_total _ (containers app)); try done.
    intros c [_ Hc]%elem_of_expand_pull. by apply profile_seed_catalog.
Qed.

Lemma profile_expansion_witness :
  NoDup [Examples.cD; Examples.cP] ∧
  ∀ c, c ∈ [Examples.cD; Examples.cP] ↔
       ∃ s, profile_seed Examples.profile_app s ∧
            reach (dependencies Examples.profile_app) s c.
Proof.
  refine (proj1 (profile_expansion Examples.profile_app [Profile] _) _ _).
  - apply (bool_decide_unpack _). vm_compute. reflexivity.
  - vm_compute. reflexivity.
Defined.

(** C5 as stated does not hold.  After line 186 a runtime dependency of a
    profile container is part of the result although it is neither in the
    profile, nor a system container, nor the provider of a volume; and
    before line 186 the provider shared by two profile containers is in the
    list twice. *)
Lemma profile_expansion_counterexample :
  (∃ l, containers_to_pull Examples.profile_app [Profile] = Some l ∧
        Examples.cD ∈ l ∧ ¬ profile_seed Examples.profile_app Examples.cD) ∧
  ¬ NoDup (expand Examples.shared_app (_get_providers Examples.shared_app) [Profile]).1.
Proof.
  split.
  - exists [Examples.cD; Examples.cP]. split_and!.
    + vm_compute. reflexivity.
    + apply (bool_decide_unpack _). vm_compute. reflexivity.
    + intros [[_ [Hp|Hs]]|(con & v & _ & _ & Hv)].
      * vm_compute in Hp. discriminate.
      * vm_compute in Hs. discriminate.
      * replace (_get_providers Examples.profile_app) with (∅ : gmap string Container)
          in Hv by (vm_compute; reflexivity).
        by rewrite lookup_empty in Hv.
  - replace (expand _ _ _).1
      with [Examples.cP1; Examples.cV; Examples.cP2; Examples.cV]
      by (vm_compute; reflexivity).
    intros Hnd. apply NoDup_cons in Hnd as [_ Hnd].
    apply NoDup_cons in Hnd as [Hv _]. apply Hv. set_solver.
Qed.

(** ** A chain of three build parents *)

Section chain_facts.
Variable app : App.
Variable env : Env.
Variables A B C : Container.
Hypothesis parent_C : build_parent app C = Some B.
Hypothesis parent_B : build_parent app B = Some A.
Hypothesis parent_A : build_parent app A = None.
Hypothesis catalog_A : A ∈ containers app.
Hypothesis catalog_B : B ∈ containers app.
Hypothesis catalog_C : C ∈ containers app.
Hypothesis no_provider :
  ∀ volume, volume ∈ volume_names C → _get_providers app !! volume = None.

Lemma chain_distinct : A ≠ B ∧ B ≠ C ∧ A ≠ C.
Proof using All. split_and!; intros ->; congruence. Qed.

Lemma chain_node_count : ∃ n, node_count app = S (S (S n)).
Proof using All.
  destruct chain_distinct as (HAB & HBC & HAC).
  assert (length [A; B; C] ≤ length (containers app))%nat as Hlen.
  { apply submseteq_length, NoDup_submseteq.
    - repeat constructor; set_solver.
    - set_solver. }
  unfold node_count. simpl in Hlen.
  destruct (length (containers app)) as [|[|[|n]]]; [lia..|]. by exists n.
Qed.

Lemma chain_sort_C :
  dependency_sort (parent_edges app) (node_count app) [C] = Some [A; B; C].
Proof using All.
  destruct chain_distinct as (HAB & HBC & HAC).
  destruct chain_node_count as [n ->].
  unfold dependency_sort, parent_edges. simpl.
  rewrite parent_C. simpl.
  rewrite (decide_False (P := B ∈ [C])) by set_solver.
  rewrite parent_B. simpl.
  rewrite (decide_False (P := A ∈ [B; C])) by set_solver.
  by rewrite parent_A.
Qed.

Lemma chain_sort_ABC :
  dependency_sort (parent_edges app) (node_count app) [A; B; C] = Some [A; B; C].
Proof using All.
  destruct chain_distinct as (HAB & HBC & HAC).
  destruct chain_node_count as [n ->].
  unfold dependency_sort, parent_edges. simpl.
  rewrite parent_A. simpl.
  rewrite (decide_False (P := B ∈ [A])) by set_solver.
  rewrite parent_B. simpl.
  rewrite (decide_True (P := A ∈ [A])) by set_solver. simpl.
  rewrite (decide_False (P := C ∈ [A; B])) by set_solver.
  rewrite parent_C. simpl.
  by rewrite (decide_True (P := B ∈ [A; B])) by set_solver.
Qed.

Lemma chain_ancestry : ancestry app [C] = Some [A; B].
Proof using All. unfold ancestry. by rewrite chain_sort_C. Qed.

Lemma chain_queue : (expand app (_get_providers app) [Named C]).2 = [C].
Proof using All.
  simpl. f_equal. unfold volume_providers.
  induction (volume_names C) as [|v vs IH]; [done|].
  simpl. rewrite no_provider by set_solver. apply IH.
  intros w Hw. apply no_provider. set_solver.
Qed.

(** Up to the resolution of ancestors, a request for [C] alone pulls
    nothing and queues [C]. *)
Lemma chain_build cache recursive verbose :
  build app env [Named C] cache recursive verbose =
    match resolve_ancestors app env recursive [C] (initial_state [C]) with
    | inr st => mkResult st CycleError
    | inl st =>
        match final_order app (ancestors_to_build st) with
        | None => mkResult st CycleError
        | Some order => execute app env cache verbose st order
        end
    end.
Proof using All.
  unfold build, containers_to_pull. rewrite chain_queue.
  by replace (expand app (_get_providers app) [Named C]).1 with (@nil Container).
Qed.

(** The states in which the resolution of ancestors ends. *)
Lemma chain_resolve_fail :
  (∀ tr c, pull_image_version env tr c = false) →
  resolve_ancestors app env true [C] (initial_state [C]) =
    inl (mkState [C] ∅ ({[A]} ∪ ({[B]} ∪ ∅)) [A; B; C]
                 [EvPull B false; EvPull A false]).
Proof using All.
  intros Hpull. destruct chain_distinct as (HAB & HBC & HAC).
  rewrite resolve_ancestors_cons. simpl containers_to_build.
  rewrite chain_ancestry. change (reverse [A; B]) with [B; A].
  rewrite walk_ancestors_fail by (done || set_solver).
  rewrite walk_ancestors_fail by (done || set_solver).
  done.
Qed.


Lemma chain_final_ABC : final_order app [A; B; C] = Some [A; B; C].
Proof using All.
  unfold final_order. rewrite chain_sort_ABC. simpl. f_equal.
  rewrite !filter_cons_True by set_solver. done.
Qed.


End chain_facts.

(** C2. Let [A] be the build parent of [B] and [B] the build parent of
    [C], three containers of the catalog, [A] without a build parent and
    [C] mounting no provided volume.  A recursive build of [C] in which
    every pull fails ends with the build order [A; B; C], and that is the
    queue it executes. *)
Theorem chain_all_pulls_fail app env A B C cache verbose :
  build_parent app C = Some B →
  build_parent app B = Some A →
  build_parent app A = None →
  A ∈ containers app → B ∈ containers app → C ∈ containers app →
  (∀ volume, volume ∈ volume_names C → _get_providers app !! volume = None) →
  (∀ tr c, pull_image_version env tr c = false) →
  let r := build app env [Named C] cache true verbose in
  ancestors_to_build (state r) = [A; B; C] ∧
  EvRunHooks PRE_GROUP_BUILD [A; B; C] ∈ trace (state r).
Proof.
  intros HC HB HA HcA HcB HcC Hvol Hpull r. subst r.
  rewrite (chain_build app env A B C) by done.
  rewrite (chain_resolve_fail app env A B C) by done.
  simpl ancestors_to_build.
  rewrite (chain_final_ABC app env A B C) by done.
  split; [|apply execute_started].
  by destruct (execute_shape app env cache verbose
    (mkState [C] ∅ ({[A]} ∪ ({[B]} ∪ ∅)) [A; B; C] [EvPull B false; EvPull A false])
    [A; B; C]) as (-> & _).
Qed.

Lemma chain_all_pulls_fail_witness :
  let r := build Examples.chain_app
                 (Examples.fixed_env (fun _ => false) (fun _ => true) [])
                 [Named Examples.cC] true true true in
  ancestors_to_build (state r) = [Examples.cA; Examples.cB; Examples.cC] ∧
  EvRunHooks PRE_GROUP_BUILD [Examples.cA; Examples.cB; Examples.cC]
    ∈ trace (state r).
Proof.
  apply (chain_all_pulls_fail Examples.chain_app
           (Examples.fixed_env (fun _ => false) (fun _ => true) [])
           Examples.cA Examples.cB Examples.cC true true).
  - vm_compute. reflexivity.
  - vm_compute. reflexivity.
  - vm_compute. reflexivity.
  - apply (bool_decide_unpack _). vm_compute. reflexivity.
  - apply (bool_decide_unpack _). vm_compute. reflexivity.
  - apply (bool_decide_unpack _). vm_compute. reflexivity.
  - intros volume Hv. vm_compute in Hv. by apply elem_of_nil in Hv.
  - intros tr c. reflexivity.
Defined.




(** ** The ancestry that the walk is given *)

(** C1, the code at a request for two containers.  With [cC] and [cX]
    queued, the list walked for each of them is the sort of the whole queue
    without its last element: it holds [cC] itself, and for [cX], which has
    no build ancestors, it holds [cA], [cB] and [cC].  In the run the walk
    for [cC] pulls the image of [cC]. *)
Theorem ancestry_of_whole_queue :
  let app := Examples.mixed_app in
  let env := Examples.fixed_env (fun _ => false) (fun _ => true) [] in
  let r := build app env [Named Examples.cC; Named Examples.cX] true true true in
  ancestry app (containers_to_build (state r))
    = Some [Examples.cA; Examples.cB; Examples.cC] ∧
  build_ancestors app (node_count app) Examples.cC = [Examples.cA; Examples.cB] ∧
  build_ancestors app (node_count app) Examples.cX = [] ∧
  EvPull Examples.cC false ∈ trace (state r).
Proof.
  split_and!; [vm_compute; reflexivity..|].
  apply (bool_decide_unpack _). vm_compute. reflexivity.
Qed.

(** ** The hooks *)

Section hook_facts.
Variable app : App.
Variable builder : Host → Container → option Host.

(** The loop of [pre_start] only appends to what was done before. *)
Lemma build_missing_volumes_done providers names host done :
  build_missing_volumes builder providers names host done =
    let run := build_missing_volumes builder providers names host [] in
    mkRun (host_after run) (done ++ actions run) (raised run).
Proof.
  revert host done. induction names as [|v names IH]; intros host done; simpl.
  { by rewrite app_nil_r. }
  destruct (providers !! v) as [p|]; [|apply IH].
  destruct (volumes host !! v).
  - rewrite IH, (IH _ [_]). simpl. by rewrite <-app_assoc.
  - destruct (builder host p) as [built|]; [|done].
    rewrite IH, (IH _ [_; _]). simpl. by rewrite <-app_assoc.
Qed.

Lemma build_missing_volumes_on_demand providers names host done host' :
  build_missing_volumes builder providers names host [] = mkRun host' done None ↔
  on_demand builder providers host names done host'.
Proof.
  split.
  - revert host done. induction names as [|v names IH]; intros host done; simpl.
    { intros [= <- <-]. constructor. }
    destruct (providers !! v) as [p|] eqn:Hp;
      [|intros ?; apply od_unprovided; auto].
    destruct (volumes host !! v) eqn:Hv.
    + rewrite build_missing_volumes_done. simpl.
      destruct (build_missing_volumes _ _ _ _ _) as [h a e] eqn:Hrun. simpl.
      intros [= -> <- ->]. eapply od_exists; eauto.
    + destruct (builder host p) as [built|] eqn:Hb; [|done].
      rewrite build_missing_volumes_done. simpl.
      destruct (build_missing_volumes _ _ _ _ _) as [h a e] eqn:Hrun. simpl.
      intros [= -> <- ->]. eapply od_built; eauto.
  - induction 1 as [host|host v rest done host' Hp _ IH
                   |host v p rest done host' Hp [vol Hv] _ IH
                   |host v p built rest done host' Hp Hv Hb _ IH]; simpl.
    + done.
    + by rewrite Hp.
    + rewrite Hp, Hv, build_missing_volumes_done, IH. done.
    + rewrite Hp, Hv, Hb, build_missing_volumes_done, IH. done.
Qed.

(** Every build of the loop follows a failed inspection of a volume its
    container provides, and a volume found on the host is never followed
    by a build. *)
Lemma on_demand_builds providers host names done host' :
  on_demand builder providers host names done host' →
  (∀ provider, Build provider ∈ done →
     ∃ volume, volume ∈ names ∧ providers !! volume = Some provider ∧
               InspectVolume volume false ∈ done) ∧
  (∀ volume provider, volume ∈ names → providers !! volume = Some provider →
     ∃ found, InspectVolume volume found ∈ done) ∧
  (∀ volume provider, InspectVolume volume false ∈ done →
     providers !! volume = Some provider → Build provider ∈ done).
Proof.
  induction 1 as [host|host v rest done host' Hp _ (IH1 & IH2 & IH3)
                 |host v p rest done host' Hp Hv _ (IH1 & IH2 & IH3)
                 |host v p built rest done host' Hp Hv Hb _ (IH1 & IH2 & IH3)].
  - split_and!; [by intros ? ?%elem_of_nil|by intros ?? ?%elem_of_nil
                |by intros ?? ?%elem_of_nil].
  - split_and!; [|intros w q [->|Hw]%elem_of_cons Hq; simplify_eq|]; [|by eauto..].
    intros q (w & ? & ? & ?)%IH1. exists w. set_solver.
  - split_and!.
    + intros q [[=]|(w & ? & ? & ?)%IH1]%elem_of_cons. exists w. set_solver.
    + intros w q [->|Hw]%elem_of_cons Hq.
      * exists true. set_solver.
      * destruct (IH2 w q) as [found ?]; [done..|]. exists found. set_solver.
    + intros w q [[=]|Hw]%elem_of_cons Hq. apply elem_of_cons. right. by eapply IH3.
  - split_and!.
    + intros q [[=]|[[= <-]|(w & ? & ? & ?)%IH1]%elem_of_cons]%elem_of_cons.
      * exists v. set_solver.
      * exists w. set_solver.
    + intros w q [->|Hw]%elem_of_cons Hq.
      * exists false. set_solver.
      * destruct (IH2 w q) as [found ?]; [done..|]. exists found. set_solver.
    + intros w q [[= ->]|[[=]|Hw]%elem_of_cons]%elem_of_cons Hq.
      * simplify_eq. set_solver.
      * do 2 (apply elem_of_cons; right). by eapply IH3.
Qed.

End hook_facts.

Lemma build_missing_volumes_raised builder providers names host done :
  raised (build_missing_volumes builder providers names host done) = None ∨
  raised (build_missing_volumes builder providers names host done)
    = Some BuildFailureError.
Proof.
  revert host done. induction names as [|v names IH]; intros host done; simpl;
    [by left|].
  destruct (providers !! v) as [p|]; [|done].
  destruct (volumes host !! v); [done|].
  destruct (builder host p); [done|by right].
Qed.

(** C9, as the code has it.  For every host and whatever the builder
    would do, [pre_start] raises [ValueError] for an instance whose
    container has a true [provides-volume] entry, that is an entry that
    names a volume; it raises before inspecting or building anything. *)
Theorem pre_start_vetoes_provider app builder host instance volume :
  truthy (provides_volume (container instance)) = Some volume →
  pre_start app builder host instance =
    mkRun host []
      (Some (ValueError ("You cannot run a volume-providing container "
                         +:+ name (container instance)))).
Proof. intros Hv. unfold pre_start. by rewrite Hv. Qed.

Lemma pre_start_vetoes_provider_witness :
  pre_start Examples.volume_app Examples.hooked_builder Examples.fresh_host
            (mkInstance "V.1" Examples.cV) =
    mkRun Examples.fresh_host []
      (Some (ValueError "You cannot run a volume-providing container V")).
Proof.
  apply (pre_start_vetoes_provider Examples.volume_app Examples.hooked_builder
           Examples.fresh_host (mkInstance "V.1" Examples.cV) "data").
  reflexivity.
Defined.

(** C9 as stated does not hold: a container whose [extra_data] declares
    [provides-volume] as the empty string passes the hook. *)
Lemma pre_start_empty_entry_counterexample :
  is_Some (provides_volume Examples.cE) ∧
  raised (pre_start Examples.volume_app Examples.hooked_builder Examples.fresh_host
                    (mkInstance "E.1" Examples.cE)) = None.
Proof. split; [by eexists|reflexivity]. Qed.

(** C10. For an instance whose container provides no volume, [pre_start]
    does not raise [ValueError], and it returns exactly when the walk over
    the named volumes in mount order succeeds: a named volume with a
    provider in the catalog is inspected on the host; when it is missing
    the provider is built, and the hook only returns once that build has
    succeeded; when it exists nothing is built for it.  So in a run that
    returns, every build follows a failed inspection of a volume the built
    container provides, every provided volume has been inspected, and
    every volume found missing has had its provider built. *)
Theorem pre_start_builds_on_demand app builder host instance :
  truthy (provides_volume (container instance)) = None →
  let run := pre_start app builder host instance in
  let providers := _get_providers app in
  let names := volume_names (container instance) in
  (∀ message, raised run ≠ Some (ValueError message)) ∧
  (∀ host' done,
     run = mkRun host' done None ↔
     on_demand builder providers host names done host') ∧
  (raised run = None →
     (∀ provider, Build provider ∈ actions run →
        ∃ volume, volume ∈ names ∧ providers !! volume = Some provider ∧
                  InspectVolume volume false ∈ actions run) ∧
     (∀ volume provider, volume ∈ names → providers !! volume = Some provider →
        ∃ found, InspectVolume volume found ∈ actions run) ∧
     (∀ volume provider, InspectVolume volume false ∈ actions run →
        providers !! volume = Some provider → Build provider ∈ actions run)).
Proof.
  intros Hv run providers names. subst run. unfold pre_start. rewrite Hv.
  fold providers names. split_and!.
  - intros message.
    by destruct (build_missing_volumes_raised builder providers names host [])
      as [-> | ->].
  - intros host' done. apply build_missing_volumes_on_demand.
  - intros Hraised. apply (on_demand_builds builder providers host names _
      (host_after (build_missing_volumes builder providers names host []))).
    apply build_missing_volumes_on_demand.
    destruct (build_missing_volumes _ _ _ _ _); simpl in *. by subst.
Qed.

Lemma pre_start_builds_on_demand_witness :
  let run := pre_start Examples.volume_app Examples.hooked_builder
                       Examples.fresh_host (mkInstance "S.1" Examples.cS) in
  raised run = None ∧
  actions run = [InspectVolume "data" false; Build Examples.cV] ∧
  Build Examples.cV ∈ actions run.
Proof.
  split_and!; [reflexivity..|].
  destruct (pre_start_builds_on_demand Examples.volume_app Examples.hooked_builder
              Examples.fresh_host (mkInstance "S.1" Examples.cS) eq_refl)
    as (_ & _ & Hrun).
  destruct (Hrun eq_refl) as (_ & _ & Hbuilt).
  apply (Hbuilt "data").
  - apply (bool_decide_unpack _). vm_compute. reflexivity.
  - vm_compute. reflexivity.
Defined.

(** A host on which the provided volume carries the [Id] of the image
    needs nothing from [post_build]. *)
Lemma post_build_settled host c image_id :
  images host !! image_name c = Some image_id →
  (∀ v, truthy (provides_volume c) = Some v →
        ∃ details, volumes host !! v = Some details ∧
                   default ∅ (Labels details) !! "build_id" = Some image_id) →
  post_build host c = mkRun host [] None.
Proof.
  intros Himage Hlabel. unfold post_build. rewrite Himage.
  destruct (truthy (provides_volume c)) as [v|]; [|done]. simpl.
  destruct (Hlabel v eq_refl) as (details & -> & Hid).
  by rewrite bool_decide_false by (by rewrite Hid; intros []).
Qed.

(** A sequence of calls either returns, having made every call with none
    refused, or stops at the first call that is refused. *)
Lemma perform_cases refused steps host made :
  let run := perform refused steps host made in
  (raised run = None ∧ actions run = made ++ steps.*1 ∧
   host_after run = foldl (fun h step => step.2 h) host steps ∧
   ∀ before step later, steps = before ++ step :: later →
     refused (made ++ before.*1) step.1 = false) ∨
  (∃ before step later, steps = before ++ step :: later ∧
     raised run = Some HostError ∧
     actions run = made ++ before.*1 ++ [step.1] ∧
     host_after run = foldl (fun h step => step.2 h) host before ∧
     refused (made ++ before.*1) step.1 = true).
Proof.
  revert host made. induction steps as [|[call effect] steps IH]; intros host made; simpl.
  { left. rewrite app_nil_r. split_and!; try done. by intros [|??] ??. }
  destruct (refused made call) eqn:Hcall.
  { right. exists [], (call, effect), steps. simpl. by rewrite app_nil_r. }
  destruct (IH (effect host) (made ++ [call]))
    as [(Hr & Ha & Hh & Hn)|(before & step & later & -> & Hr & Ha & Hh & Hn)].
  - left. split_and!; try done.
    + by rewrite Ha, <-app_assoc.
    + intros [|b before] step later; simpl; intros ?; simplify_eq.
      * by rewrite app_nil_r.
      * specialize (Hn before step later eq_refl).
        by rewrite <-app_assoc in Hn.
  - right. exists ((call, effect) :: before), step, later. simpl.
    split_and!; try done.
    + by rewrite Ha, <-app_assoc.
    + by rewrite <-app_assoc in Hn.
Qed.

Lemma perform_app refused steps later host made :
  perform refused (steps ++ later) host made =
    match raised (perform refused steps host made) with
    | None => perform refused later (host_after (perform refused steps host made))
                      (actions (perform refused steps host made))
    | Some _ => perform refused steps host made
    end.
Proof.
  revert host made. induction steps as [|[call effect] steps IH]; intros host made;
    simpl; [done|].
  destruct (refused made call); [done|]. apply IH.
Qed.

(** The calls to the formation code leave images and volumes alone. *)
Lemma perform_formation refused steps host :
  Forall (fun step => formation_call step.1 = true ∧
                      ∀ h, images (step.2 h) = images h ∧
                           volumes (step.2 h) = volumes h) steps →
  steps ≠ [] →
  let run := perform refused steps host [] in
  images (host_after run) = images host ∧
  volumes (host_after run) = volumes host ∧
  Forall (fun a => formation_call a = true) (actions run) ∧
  actions run ≠ [].
Proof.
  intros Hsteps Hne run.
  assert (Forall (fun a => formation_call a = true) steps.*1) as Hcalls.
  { apply Forall_fmap. eapply Forall_impl; [done|]. by intros ? [? _]. }
  assert (∀ before, before `prefix_of` steps →
            images (foldl (fun h step => step.2 h) host before) = images host ∧
            volumes (foldl (fun h step => step.2 h) host before) = volumes host)
    as Hkeep.
  { intros before [later ->]. apply Forall_app in Hsteps as [Hbefore _].
    clear -Hbefore. induction before as [|b before IH] using rev_ind; [done|].
    apply Forall_app in Hbefore as [Hbefore [[_ Hb] _]%Forall_cons].
    rewrite foldl_app. simpl. destruct (Hb (foldl (fun h step => step.2 h) host before))
      as [-> ->]. by apply IH. }
  destruct (perform_cases refused steps host [])
    as [(_ & Ha & Hh & _)|(before & step & later & Heq & _ & Ha & Hh & _)];
    fold run in Ha, Hh; rewrite Ha, Hh; simpl.
  - destruct (Hkeep steps) as [? ?]; [done|]. split_and!; try done.
    by destruct steps.
  - destruct (Hkeep before) as [? ?]; [by exists (step :: later)|].
    split_and!; try done.
    + rewrite Heq, fmap_app, fmap_cons in Hcalls.
      apply Forall_app in Hcalls as [? [? _]%Forall_cons].
      apply Forall_app. split; [done|]. by apply Forall_singleton.
    + by destruct before.
Qed.

(** What the provisioning sequence leaves, wherever it stops: the images
    and the other volumes are as before; once the run of the image was
    reached the volume carries the label; between the removal and the
    creation it does not exist; and the volume is created at most once. *)
Lemma extract_volume_outcome host image v image_id :
  let run := extract_volume host image v image_id in
  let labels : gmap string string := {[ "build_id" := image_id ]} in
  images (host_after run) = images host ∧
  (∀ other, other ≠ v → volumes (host_after run) !! other = volumes host !! other) ∧
  (RunImage image v ∈ actions run ∨ raised run = None →
     volumes (host_after run) !! v = Some (mkVolume (Some labels))) ∧
  (CreateVolume v labels ∈ actions run → RunImage image v ∉ actions run →
     volumes (host_after run) !! v = None) ∧
  (length (filter (fun a => creates_volume a = true) (actions run)) ≤ 1)%nat ∧
  actions run ≠ [].
Proof.
  intros run labels. subst run. unfold extract_volume, provisioning. fold labels.
  set (instances := instances_using_volume host (running host) v).
  set (stop := match instances with [] => [] | _ => _ end).
  change ((Introspect, id) :: stop ++ ?tail)
    with (((Introspect, @id Host) :: stop) ++ tail).
  rewrite perform_app.
  destruct (perform_formation (refuses host) ((Introspect, id) :: stop) host)
    as (Himages & Hvolumes & Hcalls & Hne); [|done|].
  { apply Forall_cons. split; [done|]. subst stop.
    destruct instances as [|i others]; [done|].
    apply Forall_cons. split; [done|]. by apply Forall_fmap, Forall_true. }
  set (first := perform (refuses host) ((Introspect, id) :: stop) host []) in *.
  assert (∀ a, a ∈ actions first → formation_call a = true) as Hcall
    by (by apply Forall_forall).
  assert (filter (fun a => creates_volume a = true) (actions first) = []) as Hnone.
  { clear -Hcalls. induction Hcalls as [|a l Ha _ IH]; [done|].
    rewrite filter_cons_False; [done|]. by destruct a. }
  destruct (raised first) eqn:Hraised.
  { split_and!; try done.
    - by intros; rewrite Hvolumes.
    - intros [Ha%Hcall|?]; [done|congruence].
    - by intros Ha%Hcall.
    - rewrite Hnone. simpl. lia. }
  assert (∀ a tail, a ∈ actions first ++ tail → formation_call a = false → a ∈ tail)
    as Htail.
  { intros a tail [Ha%Hcall|?]%elem_of_app ?; [congruence|done]. }
  cbn [perform].
  repeat match goal with
         | |- context [refuses host ?made ?call] => destruct (refuses host made call)
         end;
    simpl; rewrite <-?app_assoc; simpl;
    rewrite ?filter_app, ?length_app, ?Hnone, ?Hvolumes, ?Himages;
    (split_and!;
     [ done
     | by intros other Hother; rewrite ?lookup_insert_ne, ?lookup_delete_ne by done
     | first [ by intros _; rewrite lookup_insert_eq
             | intros [Hin%Htail|?]; [|done..]; exfalso; revert Hin;
               rewrite !elem_of_cons, elem_of_nil; intros Hin;
               decompose [or] Hin; first [discriminate | contradiction] ]
     | first [ by intros _ _; rewrite lookup_delete_eq
             | intros Hin%Htail; [|done]; exfalso; revert Hin;
               rewrite !elem_of_cons, elem_of_nil; intros Hin;
               decompose [or] Hin; first [discriminate | contradiction]
             | intros _ Hnot; exfalso; apply Hnot; apply elem_of_app; right;
               repeat first [apply list_elem_of_here | apply list_elem_of_further] ]
     | simpl; lia
     | by destruct (actions first) ]).
Qed.

Lemma post_build_creates_at_most_once host c :
  (length (filter (fun a => creates_volume a = true)
                  (actions (post_build host c))) ≤ 1)%nat.
Proof.
  unfold post_build.
  destruct (images host !! image_name c) as [image_id|]; [|simpl; lia].
  destruct (should_extract_volume _ _ _); [|simpl; lia].
  destruct (truthy (provides_volume c)) as [v|]; [|simpl; lia].
  apply extract_volume_outcome.
Qed.

(** C7. When [post_build] has returned for a container, running it
    again is a no-op: on the host the first run leaves, or on any host
    where the image [Id] and the provided volume are as the first run left
    them, the hook returns with no action at all and the host unchanged.
    Nothing is stopped, removed, created or populated the second time, so
    two runs in succession go through the provisioning sequence at most
    once. *)
Theorem post_build_idempotent host c host2 :
  let first := post_build host c in
  raised first = None →
  images host2 !! image_name c = images (host_after first) !! image_name c →
  (∀ volume, truthy (provides_volume c) = Some volume →
     volumes host2 !! volume = volumes (host_after first) !! volume) →
  post_build host2 c = mkRun host2 [] None ∧
  (length (filter (fun a => creates_volume a = true)
                  (actions first ++ actions (post_build host2 c))) ≤ 1)%nat.
Proof.
  intros first Hraised Himage2 Hvolume2.
  assert (post_build host2 c = mkRun host2 [] None ∧
          (length (filter (fun a => creates_volume a = true) (actions first)) ≤ 1)%nat)
    as [Hsecond Honce]; [|by rewrite Hsecond, app_nil_r].
  split; [|apply post_build_creates_at_most_once].
  subst first. unfold post_build in Hraised, Himage2, Hvolume2.
  destruct (images host !! image_name c) as [image_id|] eqn:Himage; [|done].
  destruct (truthy (provides_volume c)) as [v|] eqn:Hprovides;
    cbv zeta in Hraised, Himage2, Hvolume2.
  - destruct (should_extract_volume host (Some v) image_id) eqn:Hchanged.
    + destruct (extract_volume_outcome host (image_name c) v image_id)
        as (Himages & _ & Hlabel & _).
      apply (post_build_settled _ _ image_id); [by rewrite Himage2, Himages|].
      intros w Hw. rewrite Hprovides in Hw. simplify_eq.
      rewrite (Hvolume2 w eq_refl), Hlabel by (by right). eexists. split; [done|].
      simpl. by rewrite lookup_singleton_eq.
    + simpl in Hchanged, Himage2, Hvolume2.
      apply (post_build_settled _ _ image_id); [by rewrite Himage2|].
      intros w Hw. rewrite Hprovides in Hw. simplify_eq.
      rewrite (Hvolume2 w eq_refl).
      destruct (volumes host !! w) as [details|]; [|done].
      eexists. split; [done|].
      apply bool_decide_eq_false in Hchanged.
      by destruct (decide (default ∅ (Labels details) !! "build_id" = Some image_id)).
  - simpl in Himage2. apply (post_build_settled _ _ image_id); [by rewrite Himage2|].
    intros w Hw. by rewrite Hprovides in Hw.
Qed.

Lemma post_build_idempotent_witness :
  let first := post_build Examples.fresh_host Examples.cV in
  actions first =
    [Introspect; StopInstances [mkInstance "S.1" Examples.cS]; RemoveContainer "S.1";
     GcContainers; RemoveVolume "data" false;
     CreateVolume "data" {[ "build_id" := "sha256:0001" ]};
     RunImage "registry/V" "data"] ∧
  post_build (host_after first) Examples.cV = mkRun (host_after first) [] None.
Proof.
  split; [vm_compute; reflexivity|].
  apply (post_build_idempotent Examples.fresh_host Examples.cV
           (host_after (post_build Examples.fresh_host Examples.cV))).
  - reflexivity.
  - reflexivity.
  - intros volume _. reflexivity.
Defined.

(** * Further facts *)

(** ** More about the runs of [build] *)

Section run_facts.
Variable app : App.
Variable env : Env.

(** The walk pulls nothing but ancestors it was given. *)
Lemma walk_ancestors_pulls ancestors st :
  ∃ new, pull_attempts (trace (walk_ancestors env ancestors st))
           = pull_attempts (trace st) ++ new ∧
         ∀ a, a ∈ new → a ∈ ancestors.
Proof.
  revert st. induction ancestors as [|a older IH]; intros st; simpl.
  { exists []. rewrite app_nil_r. split; [done|by intros ? ?%elem_of_nil]. }
  destruct (decide (a ∈ failed_pulls st)).
  { destruct (IH (insert_ancestor a (add_failed a st))) as (new & -> & Hnew).
    exists new. split; [done|]. set_solver. }
  destruct (decide (a ∈ pulled_containers st)).
  { exists []. rewrite app_nil_r. split; [done|by intros ? ?%elem_of_nil]. }
  destruct (pull_image_version env (trace st) a).
  - exists [a]. simpl. rewrite pull_attempts_app. split; [done|]. set_solver.
  - destruct (IH (insert_ancestor a (add_failed a (log (EvPull a false) st))))
      as (new & -> & Hnew).
    exists (a :: new). simpl. rewrite pull_attempts_app, <-app_assoc.
    split; [done|]. set_solver.
Qed.

(** What the walk is given comes from the queue through build parents. *)
Lemma ancestry_reach queue chain a :
  ancestry app queue = Some chain → a ∈ chain →
  ∃ c, c ∈ queue ∧ reach (parent_edges app) c a.
Proof.
  unfold ancestry. intros Hchain Ha.
  destruct (dependency_sort _ _ _) as [sorted|] eqn:Hsort; simplify_eq/=.
  apply dependency_sort_spec in Hsort as [_ Hsort]. apply Hsort.
  unfold all_but_last in Ha. by eapply subseteq_take.
Qed.

Lemma resolve_ancestors_pulls recursive todo st st' :
  resolve_ancestors app env recursive todo st = inl st' ∨
  resolve_ancestors app env recursive todo st = inr st' →
  containers_to_build st' = containers_to_build st ∧
  ∃ new, pull_attempts (trace st') = pull_attempts (trace st) ++ new ∧
         (recursive = false → new = []) ∧
         ∀ a, a ∈ new → ∃ c, c ∈ containers_to_build st ∧ reach (parent_edges app) c a.
Proof.
  revert st. induction todo as [|c todo IH]; intros st Hrun; simpl in Hrun.
  { assert (st' = st) as -> by (destruct Hrun; by simplify_eq).
    split; [done|]. exists []. rewrite app_nil_r. split_and!; [done..|].
    by intros ? ?%elem_of_nil. }
  destruct recursive.
  - simpl in Hrun. destruct (ancestry app (containers_to_build st)) as [chain|] eqn:Hchain.
    + apply IH in Hrun as (Hq & new & Hnew & _ & Hreach).
      rewrite walk_ancestors_queue in Hq, Hreach. simpl in Hq, Hreach.
      destruct (walk_ancestors_pulls (reverse chain) (append_ancestor c st))
        as (first & Hfirst & Hchain').
      split; [done|]. exists (first ++ new).
      rewrite Hnew, Hfirst, app_assoc. split_and!; [done..|].
      intros a [Ha|Ha]%elem_of_app; [|by apply Hreach].
      eapply ancestry_reach; [done|]. apply Hchain' in Ha. by apply elem_of_reverse.
    + assert (st' = append_ancestor c st) as -> by (destruct Hrun; by simplify_eq).
      split; [done|]. exists []. rewrite app_nil_r. split_and!; [done..|].
      by intros ? ?%elem_of_nil.
  - apply IH in Hrun as (Hq & new & Hnew & Hone & Hreach). simpl in *.
    split; [done|]. exists new. split_and!; [done|done|done].
Qed.

(** Without the recursive flag the resolution of ancestors only copies
    the queue. *)
Lemma resolve_ancestors_one todo st :
  resolve_ancestors app env false todo st =
    inl (mkState (containers_to_build st) (pulled_containers st) (failed_pulls st)
                 (ancestors_to_build st ++ todo) (trace st)).
Proof.
  revert st. induction todo as [|c todo IH]; intros st; simpl.
  - rewrite app_nil_r. by destruct st.
  - rewrite IH. simpl. by rewrite <-app_assoc.
Qed.

(** After the pull phase the queue holds what it held before and the
    containers whose pull failed. *)
Lemma pull_phase_queue l queue c :
  let st := foldl (pull_step env) (initial_state queue) l in
  c ∈ containers_to_build st ↔ c ∈ queue ∨ c ∈ failed_pulls st.
Proof.
  apply (foldl_invariant
    (fun st => c ∈ containers_to_build st ↔ c ∈ queue ∨ c ∈ failed_pulls st)).
  - simpl. set_solver.
  - intros st d Hst. unfold pull_step.
    destruct (pull_image_version _ _ _); simpl; [done|].
    rewrite elem_of_app, list_elem_of_singleton, Hst. set_solver.
Qed.

Lemma pull_phase_ancestors l queue :
  ancestors_to_build (foldl (pull_step env) (initial_state queue) l) = [].
Proof.
  apply (foldl_invariant (fun st => ancestors_to_build st = [])); [done|].
  intros st c Hst. unfold pull_step. by destruct (pull_image_version _ _ _).
Qed.

End run_facts.

(** X1. A build of nothing: with no argument the command pulls nothing
    and builds nothing, whatever the catalog; it still prints the empty
    order, fires [PRE_GROUP_BUILD] and [POST_GROUP_BUILD] with the empty
    list, finishes the task, prints the total time and returns. *)
Theorem build_empty_request app env cache recursive verbose :
  let started := [EvExtraInfo ("Order: " +:+ CYAN env "");
                  EvRunHooks PRE_GROUP_BUILD [];
                  EvRunHooks POST_GROUP_BUILD []; EvTaskFinish] in
  build app env [] cache recursive verbose =
    mkResult (mkState [] ∅ ∅ []
                (started ++ [EvEcho (total_build_time env (elapsed env started))]))
             Done.
Proof. unfold build, containers_to_pull. simpl. by destruct recursive. Qed.

(** X2. No image is pulled twice in one run of [build]: the containers
    of the pull events of the trace are pairwise different, whatever the
    request, the flags and the outcome. *)
Theorem no_image_pulled_twice app env request cache recursive verbose :
  NoDup (pull_attempts (trace (state (build app env request cache recursive verbose)))).
Proof.
  destruct (build_phases app env request cache recursive verbose)
    as (st & Hres & [->|(order & _ & ->)]); [apply Hres|].
  destruct (execute_quiet app env cache verbose st order) as (quiet & -> & Hq).
  rewrite pull_attempts_app, (quiet_attempts quiet Hq), app_nil_r. apply Hres.
Qed.

(** X3. The pulls of a run begin with the sorted profile expansion, in
    its order.  What is pulled after that is a container of the build queue
    or a container reached from one through build parents, and without the
    recursive flag nothing is pulled after that. *)
Theorem pulls_start_with_profile app env request cache recursive verbose l :
  let r := build app env request cache recursive verbose in
  containers_to_pull app request = Some l →
  ∃ later, pull_attempts (trace (state r)) = l ++ later ∧
    (recursive = false → later = []) ∧
    ∀ a, a ∈ later →
      ∃ c, c ∈ containers_to_build (state r) ∧ reach (parent_edges app) c a.
Proof.
  intros r Hl. subst r. unfold build. rewrite Hl.
  set (st1 := foldl (pull_step env) _ l).
  assert (pull_attempts (trace st1) = l) as H1
    by (subst st1; by rewrite pull_phase_attempts).
  destruct (resolve_ancestors app env recursive (containers_to_build st1) st1)
    as [st|st] eqn:Hrun.
  - destruct (resolve_ancestors_pulls app env recursive _ st1 st (or_introl Hrun))
      as (Hq & later & Hlater & Hone & Hreach).
    rewrite H1 in Hlater. rewrite <-Hq in Hreach.
    destruct (final_order app (ancestors_to_build st)) as [order|]; simpl; [|by eauto].
    destruct (execute_quiet app env cache verbose st order) as (quiet & -> & Hquiet).
    destruct (execute_shape app env cache verbose st order) as (_ & -> & _).
    rewrite pull_attempts_app, (quiet_attempts quiet Hquiet), app_nil_r. eauto.
  - destruct (resolve_ancestors_pulls app env recursive _ st1 st (or_intror Hrun))
      as (Hq & later & Hlater & Hone & Hreach).
    rewrite H1 in Hlater. rewrite <-Hq in Hreach. simpl. eauto.
Qed.

Lemma pulls_start_with_profile_witness :
  ∃ later,
    pull_attempts
      (trace (state (build Examples.profile_app
                           (Examples.fixed_env (fun _ => false) (fun _ => true) [])
                           [Profile] true true true)))
      = [Examples.cD; Examples.cP] ++ later.
Proof.
  destruct (pulls_start_with_profile Examples.profile_app
              (Examples.fixed_env (fun _ => false) (fun _ => true) [])
              [Profile] true true true [Examples.cD; Examples.cP])
    as (later & Hlater & _).
  - vm_compute. reflexivity.
  - by exists later.
Defined.

(** X4. Without the recursive flag ([--one]) no ancestor is added: when
    the run gets past the sorts, its final queue has no duplicates and
    holds exactly the containers named in the request, the providers of
    their named volumes, and the containers whose pull failed. *)
Theorem one_level_queue app env request cache verbose :
  let r := build app env request cache false verbose in
  outcome r ≠ CycleError →
  NoDup (ancestors_to_build (state r)) ∧
  ∀ c, c ∈ ancestors_to_build (state r) ↔
       c ∈ named_with_providers app request ∨ EvPull c false ∈ trace (state r).
Proof.
  intros r. subst r. unfold build.
  destruct (containers_to_pull app request) as [l|] eqn:Hl; [|done].
  rewrite resolve_ancestors_one, pull_phase_ancestors. simpl.
  set (st1 := foldl (pull_step env) _ l).
  destruct (final_order app (containers_to_build st1)) as [order|] eqn:Horder; [|done].
  intros _.
  destruct (execute_shape app env cache verbose
    (mkState (containers_to_build st1) (pulled_containers st1) (failed_pulls st1)
             (containers_to_build st1) (trace st1)) order) as (-> & _).
  destruct (execute_quiet app env cache verbose
    (mkState (containers_to_build st1) (pulled_containers st1) (failed_pulls st1)
             (containers_to_build st1) (trace st1)) order) as (quiet & -> & Hquiet).
  pose proof (final_order_spec app _ _ Horder) as [Hnd Hsub].
  split; [done|]. intros c.
  assert (EvPull c false ∈ trace st1 ++ quiet ↔ c ∈ failed_pulls st1) as ->.
  { pose proof (pull_phase_resolved app env request l Hl) as Hres. fold st1 in Hres.
    rewrite (pi_failed _ (rs_pulls _ _ _ Hres)). simpl. rewrite elem_of_app.
    split; [intros [?|?]; [done|by eapply quiet_no_pull in Hquiet]|by left]. }
  pose proof (pull_phase_queue env l (expand app (_get_providers app) request).2 c)
    as Hqueue.
  fold st1 in Hqueue. simpl in Hqueue. rewrite expand_named in Hqueue.
  rewrite <-Hqueue. split; [by apply Hsub|].
  intros Hc. unfold final_order in Horder.
  destruct (dependency_sort _ _ _) as [sorted|] eqn:Hsort; simplify_eq/=.
  apply list_elem_of_filter. split; [done|].
  apply dependency_sort_spec in Hsort as [_ Hsort]. apply Hsort.
  exists c. split; [done|]. apply rtc_refl.
Qed.

Lemma one_level_queue_witness :
  ancestors_to_build
    (state (build Examples.chain_app
                  (Examples.fixed_env (fun _ => false) (fun _ => true) [])
                  [Named Examples.cC] true false true)) = [Examples.cC] ∧
  NoDup (ancestors_to_build
    (state (build Examples.chain_app
                  (Examples.fixed_env (fun _ => false) (fun _ => true) [])
                  [Named Examples.cC] true false true))).
Proof.
  split; [vm_compute; reflexivity|].
  apply (one_level_queue Examples.chain_app
           (Examples.fixed_env (fun _ => false) (fun _ => true) [])
           [Named Examples.cC] true true).
  vm_compute. discriminate.
Defined.

(** X5. When every build succeeds the command returns, and after the
    pulls its trace is: the order line, [PRE_GROUP_BUILD], one successful
    build for each container of the final queue in queue order,
    [POST_GROUP_BUILD] with the same list, the end of the task and the
    total time.  The final queue has no duplicates, so every container in
    it is built once. *)
Theorem build_success_trace app env request cache recursive verbose :
  let r := build app env request cache recursive verbose in
  outcome r = Done →
  let order := ancestors_to_build (state r) in
  NoDup order ∧
  ∃ pulls time,
    Forall (fun e => is_Some (pulled_in e)) pulls ∧
    trace (state r) =
      pulls
      ++ [EvExtraInfo ("Order: " +:+ CYAN env (String.concat ", " (name <$> order)));
          EvRunHooks PRE_GROUP_BUILD order]
      ++ ((fun c => EvBuild c true) <$> order)
      ++ [EvRunHooks POST_GROUP_BUILD order; EvTaskFinish; EvEcho time].
Proof.
  intros r. subst r.
  destruct (build_phases app env request cache recursive verbose)
    as (st & Hres & [->|(order & Horder & ->)]); [done|].
  apply final_order_spec in Horder as [Hnd _].
  destruct (execute_shape app env cache verbose st order)
    as (-> & _ & _ & _ & [(_ & time & ->)|(-> & _)]); [|done].
  intros _. split; [done|]. exists (trace st), time.
  split; [apply Hres|]. by rewrite <-!app_assoc.
Qed.

Lemma build_success_trace_witness :
  NoDup (ancestors_to_build
    (state (build Examples.chain_app
                  (Examples.fixed_env (fun _ => false) (fun _ => true) [])
                  [Named Examples.cC] true true true))).
Proof.
  refine (proj1 (build_success_trace Examples.chain_app
                   (Examples.fixed_env (fun _ => false) (fun _ => true) [])
                   [Named Examples.cC] true true true _)).
  vm_compute. reflexivity.
Defined.

(** X6. A container whose image was pulled successfully in a run is built
    in that run only if the request names it, or names a container one of
    whose named volumes it provides. *)
Theorem pulled_built_only_if_named app env request cache recursive verbose c ok :
  let r := build app env request cache recursive verbose in
  EvPull c true ∈ trace (state r) →
  EvBuild c ok ∈ trace (state r) →
  c ∈ named_with_providers app request.
Proof.
  intros r. subst r.
  destruct (build_phases app env request cache recursive verbose)
    as (st & Hres & [->|(order & Horder & ->)]); simpl.
  { intros _ Hb. by apply (only_pulls _ _ (rs_trace _ _ _ Hres)) in Hb as [? [=]]. }
  intros Hpull Hbuilt.
  apply execute_builds in Hbuilt; [|apply Hres].
  apply final_order_spec in Horder as [_ Hqueued].
  apply Hqueued, (rs_ancestors _ _ _ Hres) in Hbuilt as [Hnamed|Hfailed].
  { by rewrite <-expand_named. }
  destruct (execute_quiet app env cache verbose st order) as (quiet & Hq & Hquiet).
  rewrite Hq in Hpull. apply elem_of_app in Hpull as [Hpull|Hpull];
    [|by eapply quiet_no_pull in Hquiet].
  apply (pi_pulled _ (rs_pulls _ _ _ Hres)) in Hpull.
  by destruct (pull_inv_disjoint _ (rs_pulls _ _ _ Hres) c).
Qed.

Lemma pulled_built_only_if_named_witness :
  Examples.cC ∈ named_with_providers Examples.mixed_app
                  [Named Examples.cC; Named Examples.cX].
Proof.
  apply (pulled_built_only_if_named Examples.mixed_app
           (Examples.fixed_env (fun _ => true) (fun _ => true) [])
           [Named Examples.cC; Named Examples.cX] true true true Examples.cC true);
    apply (bool_decide_unpack _); vm_compute; reflexivity.
Defined.

(** X7. The walk over the ancestors of lines 218-240 stops at the first
    ancestor whose image is available.  The list it is given splits into
    the ancestors before that one, the ancestor itself and the older
    ones.  Each ancestor before it had failed a pull already or fails one
    now; they are added to [failed_pulls] and put in front of the build
    list, the last one first.  The ancestor at which the walk stops had
    been pulled already or is pulled now with success, and is added to
    [pulled_containers].  Nothing else changes: the older ancestors are
    neither pulled nor queued, and the events of the walk are exactly
    these pulls, each with the answer the host gave at that point. *)
Theorem walk_stops_at_first_available env ancestors st :
  let st' := walk_ancestors env ancestors st in
  ∃ failed rest pulls,
    ancestors = failed ++ rest ∧
    ancestors_to_build st' = reverse failed ++ ancestors_to_build st ∧
    containers_to_build st' = containers_to_build st ∧
    failed_pulls st' = list_to_set failed ∪ failed_pulls st ∧
    pulled_containers st' = list_to_set (take 1 rest) ∪ pulled_containers st ∧
    trace st' = trace st ++ pulls ∧
    (∀ a, a ∈ failed → a ∈ failed_pulls st ∨ EvPull a false ∈ pulls) ∧
    (∀ a, a ∈ take 1 rest → a ∈ pulled_containers st ∨ EvPull a true ∈ pulls) ∧
    (∀ e, e ∈ pulls → (∃ a, e = EvPull a false ∧ a ∈ failed) ∨
                      (∃ a, e = EvPull a true ∧ a ∈ take 1 rest)) ∧
    (∀ before a ok later, pulls = before ++ EvPull a ok :: later →
       ok = pull_image_version env (trace st ++ before) a).
Proof.
  revert st. induction ancestors as [|a older IH]; intros st; simpl.
  { exists [], [], []. simpl. rewrite app_nil_r, !(left_id_L ∅ (∪)).
    split_and!; try done; try (by intros ? ?%elem_of_nil).
    by intros [|??] ???. }
  destruct (decide (a ∈ failed_pulls st)) as [Hf|Hf].
  { destruct (IH (insert_ancestor a (add_failed a st)))
      as (failed & rest & pulls & -> & Hq & Hb & Hfailed & Hpulled & Htr
          & Hwhy & Hstop & Hpulls & Hanswer).
    exists (a :: failed), rest, pulls. simpl in *.
    rewrite reverse_cons, <-app_assoc. split_and!; try done.
    - rewrite Hfailed. clear. set_solver.
    - intros b [->|Hb']%elem_of_cons; [by left|].
      destruct (Hwhy b Hb') as [[->%elem_of_singleton|?]%elem_of_union|?];
        [by left|by left|by right].
    - intros e [(b & -> & ?)|?]%Hpulls; [|by right].
      left. exists b. split; [done|]. by apply list_elem_of_further. }
  destruct (decide (a ∈ pulled_containers st)) as [Hp|Hp].
  { exists [], (a :: older), []. simpl.
    rewrite app_nil_r, (left_id_L ∅ (∪)), (right_id_L ∅ (∪)).
    split_and!; try done; try (by intros ? ?%elem_of_nil).
    - by intros b ->%list_elem_of_singleton; left.
    - by intros [|??] ???. }
  destruct (pull_image_version env (trace st) a) eqn:Hok.
  - exists [], (a :: older), [EvPull a true]. simpl.
    rewrite (left_id_L ∅ (∪)), (right_id_L ∅ (∪)).
    split_and!; try done; try (by intros ? ?%elem_of_nil).
    + intros b ->%list_elem_of_singleton. right. by apply list_elem_of_singleton.
    + intros e ->%list_elem_of_singleton. right. exists a.
      split; [done|]. by apply list_elem_of_singleton.
    + intros [|? [|??]] b ok later [=]; simplify_eq. by rewrite app_nil_r.
  - destruct (IH (insert_ancestor a (add_failed a (log (EvPull a false) st))))
      as (failed & rest & pulls & -> & Hq & Hb & Hfailed & Hpulled & Htr
          & Hwhy & Hstop & Hpulls & Hanswer).
    exists (a :: failed), rest, (EvPull a false :: pulls). simpl in *.
    rewrite reverse_cons, <-!app_assoc. split_and!; try done.
    + rewrite Hfailed. clear. set_solver.
    + by rewrite Htr, <-app_assoc.
    + intros b [->|Hb']%elem_of_cons; [right; by apply list_elem_of_here|].
      destruct (Hwhy b Hb') as [[->%elem_of_singleton|?]%elem_of_union|?].
      * right. by apply list_elem_of_here.
      * by left.
      * right. by apply list_elem_of_further.
    + intros b Hb'. destruct (Hstop b Hb') as [?|?]; [by left|].
      right. by apply list_elem_of_further.
    + intros e [->|[(b & -> & ?)|?]%Hpulls]%elem_of_cons.
      * left. exists a. split; [done|]. by apply list_elem_of_here.
      * left. exists b. split; [done|]. by apply list_elem_of_further.
      * by right.
    + intros [|e before] b ok later; simpl; intros [=]; simplify_eq.
      * by rewrite app_nil_r.
      * rewrite (Hanswer before b ok later eq_refl). by rewrite <-app_assoc.
Qed.

(** X8. When [dependency_sort] raises in one of its three calls the run
    ends before the execution phase: its trace holds pulls and nothing
    else, so no hook was fired, no image was built and nothing was
    printed. *)
Theorem cycle_error_builds_nothing app env request cache recursive verbose :
  let r := build app env request cache recursive verbose in
  outcome r = CycleError →
  Forall (fun e => is_Some (pulled_in e)) (trace (state r)).
Proof.
  intros r. subst r.
  destruct (build_phases app env request cache recursive verbose)
    as (st & Hres & [->|(order & _ & ->)]); [intros _; apply Hres|].
  by destruct (execute_shape app env cache verbose st order)
    as (_ & _ & _ & _ & [(-> & _)|(-> & _)]).
Qed.

Lemma cycle_error_builds_nothing_witness :
  Forall (fun e => is_Some (pulled_in e))
    (trace (state (build MoreExamples.loop_app
                         (Examples.fixed_env (fun _ => false) (fun _ => true) [])
                         [Named MoreExamples.cL1] true true true))).
Proof.
  apply (cycle_error_builds_nothing MoreExamples.loop_app
           (Examples.fixed_env (fun _ => false) (fun _ => true) [])
           [Named MoreExamples.cL1] true true true).
  vm_compute. reflexivity.
Defined.

(** X9. The command leaves through [sys.exit] only with code 1, and
    only after a build of the final queue has raised. *)
Theorem exit_only_after_failed_build app env request cache recursive verbose code :
  let r := build app env request cache recursive verbose in
  outcome r = Exit code →
  code = 1%nat ∧ ∃ c, c ∈ ancestors_to_build (state r) ∧
                      EvBuild c false ∈ trace (state r).
Proof.
  intros r. subst r.
  destruct (build_phases app env request cache recursive verbose)
    as (st & Hres & [->|(order & _ & ->)]); [done|].
  destruct (execute_shape app env cache verbose st order)
    as (-> & _ & _ & _ & [(-> & _)|(-> & built & f & rest & -> & ->)]); [done|].
  intros [= <-]. split; [done|]. exists f. split; [set_solver|].
  rewrite failure_report_shape. set_solver.
Qed.

Lemma exit_only_after_failed_build_witness :
  1%nat = 1%nat ∧
  ∃ c, c ∈ ancestors_to_build
             (state (build Examples.chain_app
                           (Examples.failing_env Examples.seventeen_lines)
                           [Named Examples.cC] true true true)) ∧
       EvBuild c false
         ∈ trace (state (build Examples.chain_app
                               (Examples.failing_env Examples.seventeen_lines)
                               [Named Examples.cC] true true true)).
Proof.
  apply (exit_only_after_failed_build Examples.chain_app
           (Examples.failing_env Examples.seventeen_lines)
           [Named Examples.cC] true true true 1).
  vm_compute. reflexivity.
Defined.

(** ** More about the providers and the hooks *)

Lemma get_providers_from_iff l (providers : gmap string Container) volume c :
  foldl get_providers_step providers l !! volume = Some c ↔
  (∃ before after, l = before ++ c :: after ∧
      truthy (provides_volume c) = Some volume ∧
      Forall (fun d => truthy (provides_volume d) ≠ Some volume) after) ∨
  (providers !! volume = Some c ∧
   Forall (fun d => truthy (provides_volume d) ≠ Some volume) l).
Proof.
  induction l as [|x l IH] using rev_ind.
  { simpl. split; [by right|]. intros [(l1 & l2 & Heq & _)|[? _]]; [|done].
    by destruct l1. }
  rewrite foldl_app. simpl. unfold get_providers_step at 1.
  assert (∀ w, truthy (provides_volume x) = w → w ≠ Some volume →
    (foldl get_providers_step providers l !! volume = Some c ↔
     (∃ before after, l ++ [x] = before ++ c :: after ∧
        truthy (provides_volume c) = Some volume ∧
        Forall (fun d => truthy (provides_volume d) ≠ Some volume) after) ∨
     (providers !! volume = Some c ∧
      Forall (fun d => truthy (provides_volume d) ≠ Some volume) (l ++ [x]))))
    as Hother.
  { intros w Hw Hne. rewrite IH. split.
    - intros [(l1 & l2 & -> & Hc & Hl2)|[Hp Hall]].
      + left. exists l1, (l2 ++ [x]). rewrite <-app_assoc. split_and!; [done..|].
        apply Forall_app. split; [done|]. apply Forall_singleton. congruence.
      + right. split; [done|]. apply Forall_app. split; [done|].
        apply Forall_singleton. congruence.
    - intros [(l1 & l2 & Heq & Hc & Hl2)|[Hp [Hall _]%Forall_app]]; [|by right].
      destruct l2 as [|d l2 _] using rev_ind.
      + apply app_inj_tail in Heq as [_ ->]. congruence.
      + rewrite app_comm_cons, app_assoc in Heq. apply app_inj_tail in Heq as [-> ->].
        apply Forall_app in Hl2 as [Hl2 _]. left. by exists l1, l2. }
  destruct (truthy (provides_volume x)) as [w|] eqn:Hx; [|by apply (Hother None)].
  destruct (decide (w = volume)) as [->|Hne];
    [|rewrite lookup_insert_ne by done; apply (Hother (Some w)); congruence].
  rewrite lookup_insert_eq. split.
  - intros [= <-]. left. by exists l, [].
  - intros [(l1 & l2 & Heq & Hc & Hl2)|[_ [_ Hall]%Forall_app]].
    + destruct l2 as [|d l2 _] using rev_ind.
      * by apply app_inj_tail in Heq as [_ ->].
      * rewrite app_comm_cons, app_assoc in Heq. apply app_inj_tail in Heq as [_ ->].
        apply Forall_app in Hl2 as [_ Hd]. rewrite Forall_singleton in Hd. congruence.
    + rewrite Forall_singleton in Hall. congruence.
Qed.

(** X10. [_get_providers] maps a volume name to the last container of
    the catalog whose [provides-volume] entry is that name: a provider is a
    catalog container with a true entry, no later container of the catalog
    provides the same volume, and a volume some container provides is
    always in the map.  Entries that are missing or empty register
    nothing. *)
Theorem get_providers_last_wins app volume c :
  _get_providers app !! volume = Some c ↔
  ∃ before after, containers app = before ++ c :: after ∧
    truthy (provides_volume c) = Some volume ∧
    Forall (fun d => truthy (provides_volume d) ≠ Some volume) after.
Proof.
  unfold _get_providers. rewrite get_providers_from_iff. split; [|by left].
  intros [?|[Hempty _]]; [done|]. by rewrite lookup_empty in Hempty.
Qed.

Section more_hook_facts.
Variable app : App.
Variable builder : Host → Container → option Host.

Lemma build_missing_volumes_present providers names host :
  (∀ v, v ∈ names → is_Some (providers !! v) → is_Some (volumes host !! v)) →
  build_missing_volumes builder providers names host [] =
    mkRun host
      ((fun v => InspectVolume v true)
         <$> filter (fun v => is_Some (providers !! v)) names)
      None.
Proof.
  induction names as [|v names IH]; intros Hpresent; simpl; [done|].
  destruct (providers !! v) as [p|] eqn:Hp.
  - destruct (Hpresent v) as [details Hv]; [set_solver|by eexists|].
    rewrite Hv, build_missing_volumes_done, IH by (intros; apply Hpresent; set_solver).
    simpl. by rewrite filter_cons_True by (by rewrite Hp).
  - rewrite IH by (intros; apply Hpresent; set_solver).
    by rewrite filter_cons_False by (rewrite Hp; by intros []).
Qed.

Lemma build_missing_volumes_failure providers names host run_actions host' :
  build_missing_volumes builder providers names host []
    = mkRun host' run_actions (Some BuildFailureError) →
  ∃ before volume provider,
    run_actions = before ++ [InspectVolume volume false; Build provider] ∧
    volume ∈ names ∧ providers !! volume = Some provider ∧
    volumes host' !! volume = None ∧ builder host' provider = None.
Proof.
  revert host run_actions. induction names as [|v names IH];
    intros host run_actions; simpl; [done|].
  destruct (providers !! v) as [p|] eqn:Hp.
  - destruct (volumes host !! v) eqn:Hv.
    + rewrite build_missing_volumes_done. simpl.
      destruct (build_missing_volumes _ _ _ _ _) as [h a e] eqn:Hrun. simpl.
      intros [= -> <- ->]. apply IH in Hrun as (before & w & q & -> & ? & ? & ? & ?).
      exists (InspectVolume v true :: before), w, q. split_and!; try done. set_solver.
    + destruct (builder host p) as [built|] eqn:Hb.
      * rewrite build_missing_volumes_done. simpl.
        destruct (build_missing_volumes _ _ _ _ _) as [h a e] eqn:Hrun. simpl.
        intros [= -> <- ->]. apply IH in Hrun as (before & w & q & -> & ? & ? & ? & ?).
        exists (InspectVolume v false :: Build p :: before), w, q.
        split_and!; try done. set_solver.
      * intros [= <- <-]. exists [], v, p. split_and!; try done. set_solver.
  - intros Hrun. apply IH in Hrun as (before & w & q & -> & ? & ? & ? & ?).
    exists before, w, q. split_and!; try done. set_solver.
Qed.

End more_hook_facts.

(** X11. When every named volume of the instance that has a provider
    already exists on the host, [pre_start] of a container that provides no
    volume builds nothing and leaves the host as it is: it inspects each
    provided volume once, in mount order, and returns.  An instance without
    named volumes passes the hook with no call at all. *)
Theorem pre_start_nothing_missing app builder host instance :
  truthy (provides_volume (container instance)) = None →
  (∀ v, v ∈ volume_names (container instance) →
        is_Some (_get_providers app !! v) → is_Some (volumes host !! v)) →
  pre_start app builder host instance =
    mkRun host
      ((fun v => InspectVolume v true)
         <$> filter (fun v => is_Some (_get_providers app !! v))
                    (volume_names (container instance)))
      None.
Proof.
  intros Hv Hpresent. unfold pre_start. rewrite Hv.
  by apply build_missing_volumes_present.
Qed.

(** X12. When [pre_start] raises [BuildFailureError], the failing build is
    the last thing it did: its calls end with the inspection that found a
    named volume of the instance missing and the build of that volume's
    provider, the host is as it was before that build, and the volume is
    still missing. *)
Theorem pre_start_build_failure app builder host instance :
  let run := pre_start app builder host instance in
  raised run = Some BuildFailureError →
  ∃ before volume provider,
    actions run = before ++ [InspectVolume volume false; Build provider] ∧
    volume ∈ volume_names (container instance) ∧
    _get_providers app !! volume = Some provider ∧
    volumes (host_after run) !! volume = None ∧
    builder (host_after run) provider = None.
Proof.
  intros run. subst run. unfold pre_start.
  destruct (truthy (provides_volume (container instance))); [done|].
  destruct (build_missing_volumes _ _ _ _ _) as [h a e] eqn:Hrun. simpl.
  intros ->. by eapply build_missing_volumes_failure.
Qed.

Lemma pre_start_nothing_missing_witness :
  pre_start Examples.volume_app Examples.hooked_builder MoreExamples.stocked_host
            (mkInstance "S.1" Examples.cS) =
    mkRun MoreExamples.stocked_host [InspectVolume "data" true] None.
Proof.
  apply (pre_start_nothing_missing Examples.volume_app Examples.hooked_builder
           MoreExamples.stocked_host (mkInstance "S.1" Examples.cS)).
  - reflexivity.
  - intros v Hv _. vm_compute in Hv.
    apply list_elem_of_singleton in Hv as ->. by eexists.
Defined.

Lemma pre_start_build_failure_witness :
  ∃ before volume provider,
    actions (pre_start Examples.volume_app MoreExamples.broken_builder
                       Examples.fresh_host (mkInstance "S.1" Examples.cS))
      = before ++ [InspectVolume volume false; Build provider].
Proof.
  destruct (pre_start_build_failure Examples.volume_app MoreExamples.broken_builder
              Examples.fresh_host (mkInstance "S.1" Examples.cS))
    as (before & volume & provider & Hrun & _).
  - vm_compute. reflexivity.
  - by exists before, volume, provider.
Defined.

(** X13. After [post_build] has returned for a container that provides a
    volume, that volume exists on the host and its [build_id] label is the
    [Id] of the container's image, whether the hook had to provision the
    volume or found it up to date.  The hook changes no image and no other
    volume. *)
Theorem post_build_labels_volume host c volume :
  let run := post_build host c in
  raised run = None →
  truthy (provides_volume c) = Some volume →
  (∃ details, volumes (host_after run) !! volume = Some details ∧
              default ∅ (Labels details) !! "build_id" = images host !! image_name c) ∧
  images (host_after run) = images host ∧
  (∀ other, other ≠ volume →
            volumes (host_after run) !! other = volumes host !! other).
Proof.
  intros run. subst run. unfold post_build.
  destruct (images host !! image_name c) as [image_id|]; [|done].
  intros Hraised Hprovides. rewrite Hprovides in *. cbv zeta in *.
  destruct (should_extract_volume host (Some volume) image_id) eqn:Hchanged.
  - destruct (extract_volume_outcome host (image_name c) volume image_id)
      as (Himages & Hother & Hlabel & _).
    split_and!; [|done..]. eexists. split; [by apply Hlabel; right|].
    simpl. by rewrite lookup_singleton_eq.
  - simpl in *. split_and!; [|done..].
    destruct (volumes host !! volume) as [details|]; [|done].
    exists details. split; [done|].
    apply bool_decide_eq_false in Hchanged.
    by destruct (decide (default ∅ (Labels details) !! "build_id" = Some image_id)).
Qed.

Lemma post_build_labels_volume_witness :
  ∃ details,
    volumes (host_after (post_build Examples.fresh_host Examples.cV)) !! "data"
      = Some details ∧
    default ∅ (Labels details) !! "build_id" = Some "sha256:0001".
Proof.
  destruct (post_build_labels_volume Examples.fresh_host Examples.cV "data")
    as ((details & Hv & Hl) & _); [reflexivity..|].
  exists details. split; [done|]. rewrite Hl. reflexivity.
Defined.


Lemma provisioning_calls host image v image_id :
  (provisioning host image v image_id).*1 =
    Introspect
    :: match instances_using_volume host (running host) v with
       | [] => []
       | instances =>
           StopInstances instances :: (RemoveContainer ∘ instance_name <$> instances)
       end
    ++ [GcContainers;
        RemoveVolume v (bool_decide (is_Some (volumes host !! v)));
        CreateVolume v {[ "build_id" := image_id ]};
        RunImage image v].
Proof.
  unfold provisioning. rewrite fmap_cons, fmap_app. simpl. do 2 f_equal.
  destruct (instances_using_volume host (running host) v) as [|i others]; [done|].
  rewrite fmap_cons. simpl. f_equal. by rewrite <-list_fmap_compose.
Qed.

(** X15. When [post_build] has to provision a volume, its calls are, in
    this order: the introspection of the formation; when an instance uses
    the volume, the run of the formation without those instances and the
    removal of each of them; the garbage collection; the removal of the
    volume (which finds it or not); its creation with the [build_id] label
    set to the image's [Id]; and one run of the image with the volume
    bound.  A run that returns has made all of them and none was refused.
    A run that raises stops at the first call that is refused, and that
    call is the last of its record.  The volume is labelled before it is
    populated: once the run of the image was reached, a second
    [post_build] on the host the first one leaves does nothing, even if
    that run of the image raised.  And the old volume is removed before
    the new one exists: when the creation is refused the host is left
    without the volume. *)
Theorem post_build_provisions host c volume image_id :
  let run := post_build host c in
  let sequence :=
    Introspect
    :: match instances_using_volume host (running host) volume with
       | [] => []
       | instances =>
           StopInstances instances :: (RemoveContainer ∘ instance_name <$> instances)
       end
    ++ [GcContainers;
        RemoveVolume volume (bool_decide (is_Some (volumes host !! volume)));
        CreateVolume volume {[ "build_id" := image_id ]};
        RunImage (image_name c) volume] in
  truthy (provides_volume c) = Some volume →
  images host !! image_name c = Some image_id →
  (∀ details, volumes host !! volume = Some details →
              default ∅ (Labels details) !! "build_id" ≠ Some image_id) →
  (raised run = None →
     actions run = sequence ∧
     ∀ before call later, sequence = before ++ call :: later →
                          refuses host before call = false) ∧
  (∀ e, raised run = Some e →
     e = HostError ∧
     ∃ before call later, sequence = before ++ call :: later ∧
       actions run = before ++ [call] ∧ refuses host before call = true) ∧
  (RunImage (image_name c) volume ∈ actions run →
     post_build (host_after run) c = mkRun (host_after run) [] None) ∧
  (CreateVolume volume {[ "build_id" := image_id ]} ∈ actions run →
   RunImage (image_name c) volume ∉ actions run →
     volumes (host_after run) !! volume = None).
Proof.
  intros run sequence Hprovides Himage Hchanged.
  assert (run = extract_volume host (image_name c) volume image_id) as Hrun.
  { subst run. unfold post_build. rewrite Himage, Hprovides.
    assert (should_extract_volume host (Some volume) image_id = true) as ->; [|done].
    simpl. destruct (volumes host !! volume) as [details|]; [|done].
    apply bool_decide_eq_true. by apply Hchanged. }
  clearbody run. subst run.
  pose proof (provisioning_calls host (image_name c) volume image_id) as Hcalls.
  fold sequence in Hcalls.
  destruct (extract_volume_outcome host (image_name c) volume image_id)
    as (Himages & _ & Hlabel & Hgone & _).
  split_and!; [| | |done].
  - unfold extract_volume.
    destruct (perform_cases (refuses host)
                (provisioning host (image_name c) volume image_id) host [])
      as [(_ & Ha & _ & Hn)|(? & ? & ? & _ & Hr & _)]; [|congruence].
    intros _. split; [by rewrite Ha, Hcalls|].
    intros before call later Hseq. rewrite <-Hcalls in Hseq.
    apply fmap_app_inv in Hseq as (steps1 & steps2 & -> & Hrest & Hsteps).
    symmetry in Hrest. apply fmap_cons_inv in Hrest as (step & steps3 & -> & _ & ->).
    by apply (Hn _ _ _ Hsteps).
  - unfold extract_volume.
    destruct (perform_cases (refuses host)
                (provisioning host (image_name c) volume image_id) host [])
      as [(Hr & _)|(before & step & later & Hsteps & Hr & Ha & _ & Hn)];
      [congruence|].
    intros e He. split; [congruence|].
    exists before.*1, step.1, later.*1. split_and!; [|done..].
    by rewrite <-Hcalls, Hsteps, fmap_app, fmap_cons.
  - intros Hreached. apply (post_build_settled _ _ image_id).
    + by rewrite Himages.
    + intros v Hv. rewrite Hprovides in Hv. simplify_eq.
      rewrite Hlabel by (by left). eexists. split; [done|].
      simpl. by rewrite lookup_singleton_eq.
Qed.

Lemma post_build_provisions_witness :
  let run := post_build MoreExamples.stubborn_host Examples.cV in
  raised run = Some HostError ∧
  is_Some (volumes MoreExamples.stubborn_host !! "data") ∧
  volumes (host_after run) !! "data" = None.
Proof.
  split_and!; [reflexivity|by eexists|].
  apply (post_build_provisions MoreExamples.stubborn_host Examples.cV
           "data" "sha256:0001").
  - reflexivity.
  - reflexivity.
  - intros details Hd. vm_compute in Hd. by simplify_eq.
  - apply (bool_decide_unpack _). vm_compute. reflexivity.
  - apply (bool_decide_unpack _). vm_compute. reflexivity.
Defined.

(** ** The total build time *)

Section time_facts.
Variable env : Env.

Lemma substring_whole s : String.substring 0 (String.length s) s = s.
Proof. induction s as [|a s IH]; simpl; [done|by rewrite IH]. Qed.

Lemma total_build_time_strip s :
  total_build_time env ("0:" +:+ s) = "Total build time [" +:+ GREEN env s +:+ "]".
Proof.
  unfold total_build_time. change ("0:" +:+ s) with (String "0" (String ":" s)).
  simpl. rewrite Nat.sub_0_r, substring_whole. by destruct s.
Qed.

Lemma total_build_time_keep s :
  String.prefix "0:" s = false →
  total_build_time env s = "Total build time [" +:+ GREEN env s +:+ "]".
Proof. intros Hs. unfold total_build_time. by rewrite Hs. Qed.

Lemma hours_not_zero (h : N) rest :
  (1 ≤ h < 24)%N → String.prefix "0:" (pretty h +:+ rest) = false.
Proof.
  intros Hh. rewrite <-(N2Nat.id h).
  assert (1 ≤ N.to_nat h < 24)%nat as Hnat by lia.
  generalize dependent (N.to_nat h). clear. intros k Hk.
  do 24 (destruct k as [|k]; [first [lia|vm_compute; reflexivity]|]). lia.
Qed.

End time_facts.

(** X16. The last line of a successful build, for a build that took [n]
    seconds and less than a day: under one hour the hours are left out and
    the line shows minutes and seconds with two digits each; from one hour
    on the whole [hours:minutes:seconds] of Python's [str] of the
    difference is shown. *)
Theorem total_build_time_under_a_day env (n : N) :
  (n < 86400)%N →
  total_build_time env (Clock.str_timedelta n) =
    "Total build time ["
    +:+ GREEN env (if (n <? 3600)%N
                   then Clock.two_digits (n `div` 60)%N +:+ ":"
                        +:+ Clock.two_digits (n `mod` 60)%N
                   else Clock.str_timedelta n)
    +:+ "]".
Proof.
  intros Hn. unfold Clock.str_timedelta.
  rewrite (N.div_small n 86400), (N.mod_small n 86400) by done.
  change (0 =? 0)%N with true. cbv iota zeta.
  destruct (n <? 3600)%N eqn:Hhour.
  - apply N.ltb_lt in Hhour.
    rewrite (N.div_small n 3600) by done.
    rewrite (N.mod_small (n `div` 60) 60) by (apply N.Div0.div_lt_upper_bound; lia).
    change (pretty 0%N) with "0". apply total_build_time_strip.
  - apply N.ltb_ge in Hhour. apply total_build_time_keep, hours_not_zero.
    split.
    + change 1%N with (3600 `div` 3600)%N. by apply N.Div0.div_le_mono.
    + apply N.Div0.div_lt_upper_bound. lia.
Qed.

Lemma total_build_time_under_a_day_witness :
  total_build_time (Examples.fixed_env (fun _ => true) (fun _ => true) [])
                   (Clock.str_timedelta 90)
    = "Total build time [01:30]".
Proof.
  rewrite (total_build_time_under_a_day
             (Examples.fixed_env (fun _ => true) (fun _ => true) []) 90) by lia.
  vm_compute. reflexivity.
Defined.

(** ** The profile commands *)

Section profile_command_facts.
Import Profiles.

Lemma list_step_fold disk dir verbose files out corrupted :
  foldl (list_step disk dir verbose) (out, corrupted) files =
    (out ++ omap (fun f =>
               (fun description =>
                  if verbose then PrintRow [before_dot f; description]
                  else Echo (before_dot f))
                 <$> load_profile disk (path_join dir [f]))
              (filter (fun f => endswith f ".yaml" = true) files),
     corrupted ++
       (before_dot
          <$> filter (fun f => load_profile disk (path_join dir [f]) = None)
                     (filter (fun f => endswith f ".yaml" = true) files))).
Proof.
  revert out corrupted.
  induction files as [|f files IH]; intros out corrupted.
  { simpl. by rewrite !app_nil_r. }
  cbn [foldl]. unfold list_step at 2. destruct (endswith f ".yaml") eqn:Hf.
  - rewrite filter_cons_True by done. cbn [omap list_omap].
    destruct (load_profile disk (path_join dir [f])) as [description|] eqn:Hload;
      cbn [fmap option_fmap option_map fst snd]; rewrite IH.
    + rewrite filter_cons_False by (by rewrite Hload). by rewrite <-app_assoc.
    + rewrite filter_cons_True by done. rewrite fmap_cons. by rewrite <-app_assoc.
  - rewrite filter_cons_False by (by rewrite Hf). apply IH.
Qed.

Lemma before_dot_no_dot s : "."%char ∉ String.list_ascii_of_string (before_dot s).
Proof.
  induction s as [|a s IH]; simpl; [by intros ?%elem_of_nil|].
  destruct (Ascii.eqb a ".") eqn:Ha; simpl; [by intros ?%elem_of_nil|].
  intros [<-|?]%elem_of_cons; [|done]. by rewrite Ascii.eqb_refl in Ha.
Qed.

Lemma profile_path_absolute home rest :
  path_join home ["profiles"; String "/" rest +:+ ".yaml"]
    = String "/" rest +:+ ".yaml".
Proof.
  unfold path_join. simpl. unfold join_step at 1.
  change (String "/" rest +:+ ".yaml") with (String "/" (rest +:+ ".yaml")).
  by destruct (rest +:+ ".yaml").
Qed.

End profile_command_facts.

(** X17. [list_profiles] accounts for every file of the profiles directory
    whose name ends in [.yaml], in the order of the listing, and ignores
    every other file: a file that loads gives one line (quiet) or one table
    row (verbose, after the header), a file that does not load gives one
    name in the list of corrupted profiles, which is printed last with its
    notice, and only when it is not empty. *)
Theorem list_profiles_accounts disk home verbose :
  let dir := Profiles.path_join home ["profiles"] in
  let yamls := filter (fun f => Profiles.endswith f ".yaml" = true)
                      (Profiles.listdir disk dir) in
  let corrupted :=
    Profiles.before_dot
      <$> filter (fun f => Profiles.load_profile disk (Profiles.path_join dir [f]) = None)
                 yamls in
  Profiles.list_profiles disk home verbose =
    (if verbose
     then [Profiles.PrintHeader [("PROFILE", 30%nat); ("DESCRIPTION", 50%nat)]]
     else [])
    ++ omap (fun f =>
               (fun description =>
                  if verbose
                  then Profiles.PrintRow [Profiles.before_dot f; description]
                  else Profiles.Echo (Profiles.before_dot f))
                 <$> Profiles.load_profile disk (Profiles.path_join dir [f])) yamls
    ++ (if decide (corrupted = []) then []
        else [Profiles.Echo
                "These profiles are defined but corrupted and cannot be loaded:";
              Profiles.EchoList corrupted]).
Proof.
  intros dir yamls corrupted. unfold Profiles.list_profiles. fold dir.
  rewrite list_step_fold. cbv beta iota zeta. fold yamls.
  change ([] ++ ?l) with l. fold corrupted. clearbody corrupted.
  destruct corrupted as [|c cs].
  - rewrite decide_True by done. by rewrite app_nil_r.
  - rewrite decide_False by done. by rewrite <-app_assoc.
Qed.

(** X18. The name [list_profiles] shows for the file [b.yaml] is the name
    [profile] has to be given for that file, namely [b], exactly when [b]
    has no dot in it; the name shown never has a dot, since it is what
    comes before the first dot of the file name. *)
Theorem listed_name_round_trip b :
  Profiles.before_dot (b +:+ ".yaml") = b ↔
  "."%char ∉ String.list_ascii_of_string b.
Proof.
  split.
  - intros <-. apply before_dot_no_dot.
  - induction b as [|a b IH]; [done|].
    change (String a b +:+ ".yaml") with (String a (b +:+ ".yaml")). simpl.
    intros [Ha Hb]%not_elem_of_cons.
    destruct (Ascii.eqb a ".") eqn:Heq; [by apply Ascii.eqb_eq in Heq|].
    by rewrite IH.
Qed.

(** X19. [profile] never touches the home directory or the list of
    profiles.  When it saves nothing it leaves the application as it was;
    it saves only for a name whose file exists and loads, and what it saves
    is the new user profile: the old one, or an empty one in place of a
    [NullProfile], with its parent set to that name. *)
Theorem profile_saves_only_valid_switch RED CYAN disk app name :
  let run := Profiles.profile RED CYAN disk app name in
  Profiles.home (Profiles.app_after run) = Profiles.home app ∧
  Profiles.profiles (Profiles.app_after run) = Profiles.profiles app ∧
  (Profiles.saved run = None → Profiles.app_after run = app) ∧
  (∀ user, Profiles.saved run = Some user →
     ∃ n, name = Some n ∧
       let path := Profiles.path_join (Profiles.home app) ["profiles"; n +:+ ".yaml"] in
       Profiles.isfile disk path = true ∧
       is_Some (Profiles.load_profile disk path) ∧
       Profiles.user_profile (Profiles.app_after run) = user ∧
       user = Profiles.UserFile (Some n)
                (match Profiles.user_profile app with
                 | Profiles.NullProfile => ""
                 | Profiles.UserFile _ content => content
                 end)).
Proof.
  unfold Profiles.profile. destruct name as [n|]; [|done]. cbv zeta.
  set (path := Profiles.path_join _ _).
  destruct (Profiles.isfile disk path) eqn:Hfile; [|done].
  destruct (Profiles.load_profile disk path) as [description|] eqn:Hload; [|done].
  cbn [negb Profiles.app_after Profiles.saved Profiles.home Profiles.profiles
       Profiles.user_profile].
  split_and!; [done..|]. intros user [= <-]. exists n. fold path.
  split_and!; [done|done|by eexists|done|done].
Qed.

(** X20. With the files as they are, running [profile] a second time
    with the same argument on the application the first run left gives the
    result of the first run again: the same user profile, the same lines,
    the same save. *)
Theorem profile_twice RED CYAN disk app name :
  let run := Profiles.profile RED CYAN disk app name in
  Profiles.profile RED CYAN disk (Profiles.app_after run) name = run.
Proof.
  destruct name as [n|]; [|done]. intros run.
  assert (run = Profiles.profile RED CYAN disk app (Some n)) as Hrun by done.
  clearbody run. unfold Profiles.profile in Hrun. cbv zeta in Hrun.
  destruct (Profiles.isfile disk
              (Profiles.path_join (Profiles.home app) ["profiles"; n +:+ ".yaml"]))
    eqn:Hfile; cbn [negb] in Hrun.
  - destruct (Profiles.load_profile disk
                (Profiles.path_join (Profiles.home app) ["profiles"; n +:+ ".yaml"]))
      as [description|] eqn:Hload; subst run; unfold Profiles.profile; cbv zeta;
      cbn [Profiles.app_after Profiles.home Profiles.user_profile Profiles.profiles];
      by rewrite Hfile, Hload.
  - subst run. unfold Profiles.profile. cbv zeta.
    cbn [Profiles.app_after]. by rewrite Hfile.
Qed.

(** X21. A profile name that begins with a slash is not looked up in
    the profiles directory: [os.path.join] drops the home directory, and
    [profile] switches to the name when the file of that absolute path
    exists and loads. *)
Theorem profile_absolute_name RED CYAN disk app rest :
  let name := String "/" rest in
  Profiles.isfile disk (name +:+ ".yaml") = true →
  is_Some (Profiles.load_profile disk (name +:+ ".yaml")) →
  ∃ content,
    Profiles.saved (Profiles.profile RED CYAN disk app (Some name))
      = Some (Profiles.UserFile (Some name) content).
Proof.
  intros name Hfile [description Hload]. unfold Profiles.profile.
  subst name. rewrite profile_path_absolute, Hfile, Hload. simpl. by eexists.
Qed.

Lemma profile_absolute_name_witness :
  ∃ content,
    Profiles.saved
      (Profiles.profile id id
         (Profiles.mkDisk (fun _ => [])
            (fun path => bool_decide (path = "/tmp/other.yaml"))
            (fun _ => Some "another profile"))
         (Profiles.mkProfileApp "/home/me/.bay" [] Profiles.NullProfile)
         (Some "/tmp/other"))
      = Some (Profiles.UserFile (Some "/tmp/other") content).
Proof.
  apply (profile_absolute_name id id
           (Profiles.mkDisk (fun _ => [])
              (fun path => bool_decide (path = "/tmp/other.yaml"))
              (fun _ => Some "another profile"))
           (Profiles.mkProfileApp "/home/me/.bay" [] Profiles.NullProfile)
           "tmp/other").
  - vm_compute. reflexivity.
  - by eexists.
Defined.

(** ** The order of plugin classes *)

Section plugin_facts.
Import Plugins.

Lemma compare_same s : String.compare s s = Eq.
Proof.
  induction s as [|a s IH]; simpl; [done|].
  unfold Ascii.compare. by rewrite N.compare_refl.
Qed.

Lemma ltb_compare s1 s2 : String.ltb s1 s2 = true ↔ String.compare s1 s2 = Lt.
Proof. unfold String.ltb. by destruct (String.compare s1 s2). Qed.

Lemma ltb_trans s1 s2 s3 :
  String.ltb s1 s2 = true → String.ltb s2 s3 = true → String.ltb s1 s3 = true.
Proof.
  rewrite !ltb_compare. intros H12 H23.
  assert (String.le s1 s3) as Hle.
  { trans s2; unfold String.le, String.leb; [by rewrite H12|by rewrite H23]. }
  unfold String.le, String.leb in Hle.
  destruct (String.compare s1 s3) eqn:H13; [|done..].
  apply String.compare_eq_iff in H13 as ->.
  rewrite String.compare_antisym, H12 in H23. done.
Qed.

Lemma compare_app_same n x y :
  String.compare (n +:+ x) (n +:+ y) = String.compare x y.
Proof.
  induction n as [|a n IH]; [done|].
  change (String a n +:+ ?z) with (String a (n +:+ z)). simpl.
  unfold Ascii.compare. by rewrite N.compare_refl.
Qed.

(** Two names that differ at some position decide the comparison of
    whatever is appended to them. *)
Lemma compare_app_apart n1 n2 x y :
  String.prefix n1 n2 = false → String.prefix n2 n1 = false →
  String.compare (n1 +:+ x) (n2 +:+ y) = String.compare n1 n2.
Proof.
  revert n2. induction n1 as [|a n1 IH]; intros [|b n2]; try done.
  change (String ?c ?n +:+ ?z) with (String c (n +:+ z)). simpl.
  destruct (Ascii.compare a b) eqn:Hab; [|done..].
  apply Ascii.compare_eq_iff in Hab as ->.
  destruct (ascii_dec b b); [|done]. apply IH.
Qed.

End plugin_facts.

(** X22. The comparisons of [PluginMetaclass] order plugin classes
    totally, by the one string [__name__ + str(id)] compared as text: of
    [__lt__], [__eq__] and [__gt__] exactly one holds for any two classes,
    [__gt__] is [__lt__] with the arguments exchanged, [__ne__] is the
    negation of [__eq__], and [__lt__] is transitive.  For two classes of
    the same name this is the order of their [id]s written in decimal and
    compared as text, and they compare equal only when they have the same
    [id].  For two classes whose names differ at some position it is the
    order of the names.  It is not the order by name and then by [id]: when
    one name begins with the other the digits of the [id] are compared
    with the rest of the longer name, and two classes of different names
    can compare equal. *)
Theorem plugin_classes_totally_ordered c o :
  ((Plugins.__lt__ c o = true ∧ Plugins.__eq__ c o = false ∧ Plugins.__gt__ c o = false) ∨
   (Plugins.__lt__ c o = false ∧ Plugins.__eq__ c o = true ∧ Plugins.__gt__ c o = false) ∨
   (Plugins.__lt__ c o = false ∧ Plugins.__eq__ c o = false ∧ Plugins.__gt__ c o = true)) ∧
  Plugins.__gt__ c o = Plugins.__lt__ o c ∧
  Plugins.__ne__ c o = negb (Plugins.__eq__ c o) ∧
  (∀ third, Plugins.__lt__ c o = true → Plugins.__lt__ o third = true →
            Plugins.__lt__ c third = true) ∧
  (Plugins.class_name c = Plugins.class_name o →
   (Plugins.__eq__ c o = true ↔ Plugins.class_id c = Plugins.class_id o) ∧
   Plugins.__lt__ c o
     = String.ltb (pretty (Plugins.class_id c)) (pretty (Plugins.class_id o))) ∧
  (String.prefix (Plugins.class_name c) (Plugins.class_name o) = false →
   String.prefix (Plugins.class_name o) (Plugins.class_name c) = false →
   Plugins.__lt__ c o = String.ltb (Plugins.class_name c) (Plugins.class_name o) ∧
   Plugins.__eq__ c o = false) ∧
  (∀ n rest i, Plugins.class_name c = n → Plugins.class_name o = n +:+ rest →
     Plugins.__lt__ c o = String.ltb (pretty (Plugins.class_id c))
                                     (rest +:+ pretty (Plugins.class_id o)) ∧
     (Plugins.class_id c = i →
      pretty i = rest +:+ pretty (Plugins.class_id o) → Plugins.__eq__ c o = true)).
Proof.
  unfold Plugins.__lt__, Plugins.__eq__, Plugins.__gt__, Plugins.__ne__.
  split_and!; [|done|done|intros third; apply ltb_trans| | |].
  - set (a := Plugins._orderable_id c). set (b := Plugins._orderable_id o).
    unfold String.ltb.
    assert (String.compare b a = CompOpp (String.compare a b)) as ->
      by apply String.compare_antisym.
    destruct (String.compare a b) eqn:Hab; simpl.
    + apply String.compare_eq_iff in Hab. rewrite Hab, String.eqb_refl. auto.
    + left. split_and!; [done| |done]. apply String.eqb_neq. intros Heq.
      by rewrite Heq, compare_same in Hab.
    + right; right. split_and!; [done| |done]. apply String.eqb_neq. intros Heq.
      by rewrite Heq, compare_same in Hab.
  - intros Hname. unfold Plugins._orderable_id. rewrite Hname. split.
    + rewrite String.eqb_eq. split; [|by intros ->].
      intros Heq%(inj (String.app _)). by apply (inj pretty).
    + unfold String.ltb. by rewrite compare_app_same.
  - intros Hco Hoc. unfold Plugins._orderable_id, String.ltb.
    rewrite compare_app_apart by done. split; [done|].
    apply String.eqb_neq. intros Heq.
    pose proof (compare_app_apart _ _ (pretty (Plugins.class_id c))
                  (pretty (Plugins.class_id o)) Hco Hoc) as Hcmp.
    rewrite Heq, compare_same in Hcmp.
    symmetry in Hcmp. apply String.compare_eq_iff in Hcmp.
    rewrite Hcmp in Hco. clear -Hco.
    induction (Plugins.class_name o) as [|a n IH]; [done|].
    simpl in Hco. by destruct (ascii_dec a a).
  - intros n rest i Hc Ho. unfold Plugins._orderable_id. rewrite Hc, Ho.
    assert (∀ x y z : string, (x +:+ y) +:+ z = x +:+ (y +:+ z)) as Hassoc.
    { intros x y z. induction x as [|a x IH]; [done|].
      change (String a x +:+ ?w) with (String a (x +:+ w)). by rewrite <-IH. }
    rewrite Hassoc. split.
    + unfold String.ltb. by rewrite compare_app_same.
    + intros -> ->. apply String.eqb_refl.
Qed.

Lemma plugin_classes_totally_ordered_witness :
  Plugins.__eq__ (Plugins.mkPluginClass "A" 12) (Plugins.mkPluginClass "A1" 2) = true ∧
  Plugins.__lt__ (Plugins.mkPluginClass "A" 10) (Plugins.mkPluginClass "A" 9) = true.
Proof.
  split.
  - apply (proj2 (proj2 (proj2 (proj2 (proj2 (proj2
             (plugin_classes_totally_ordered
                (Plugins.mkPluginClass "A" 12) (Plugins.mkPluginClass "A1" 2)))))))
             "A" "1" 12%N); reflexivity.
  - destruct (proj1 (proj2 (proj2 (proj2 (proj2
               (plugin_classes_totally_ordered
                  (Plugins.mkPluginClass "A" 10) (Plugins.mkPluginClass "A" 9))))))
               eq_refl) as [_ ->].
    reflexivity.
Defined.

(** ** Runs that reach the execution phase *)

Section wellformed_facts.
Import WellFormed.
Variable app : App.
Variable env : Env.

Lemma reach_in_universe {A} (edges : A → list A) (universe : list A) a b :
  (∀ x y, x ∈ universe → y ∈ edges x → y ∈ universe) →
  a ∈ universe → reach edges a b → b ∈ universe.
Proof. intros Hclosed Ha Hr. induction Hr; eauto. Qed.

Lemma sorted_in_catalog (edges : Container → list Container) bound nodes sorted :
  (∀ x y, x ∈ containers app → y ∈ edges x → y ∈ containers app) →
  nodes ⊆ containers app →
  dependency_sort edges bound nodes = Some sorted →
  sorted ⊆ containers app.
Proof.
  intros Hclosed Hnodes [_ Hsorted]%dependency_sort_spec x (n & Hn & Hr)%Hsorted.
  eapply reach_in_universe; [done| |done]. by apply Hnodes.
Qed.

Lemma named_in_catalog request :
  request_in_catalog app request →
  named_with_providers app request ⊆ containers app.
Proof.
  intros Hrequest c. unfold named_with_providers. rewrite list_elem_of_bind.
  intros ([|d] & Hc & Ht); [by apply elem_of_nil in Hc|].
  apply elem_of_cons in Hc as [->|Hc]; [by apply Hrequest|].
  apply elem_of_volume_providers in Hc as (v & _ & Hv).
  by eapply get_providers_catalog.
Qed.

Lemma pull_phase_in_catalog l st :
  l ⊆ containers app →
  containers_to_build st ⊆ containers app →
  containers_to_build (foldl (pull_step env) st l) ⊆ containers app.
Proof.
  revert st. induction l as [|c l IH]; intros st Hl Hst; simpl; [done|].
  apply IH; [set_solver|]. unfold pull_step.
  destruct (pull_image_version _ _ _); simpl; [done|]. set_solver.
Qed.

Lemma walk_ancestors_inserted ancestors st c :
  c ∈ ancestors_to_build (walk_ancestors env ancestors st) →
  c ∈ ancestors_to_build st ∨ c ∈ ancestors.
Proof.
  revert st. induction ancestors as [|a older IH]; intros st; simpl; [by left|].
  repeat case_decide; simpl.
  - intros [Hc|Hc]%IH; simpl in *; set_solver.
  - by left.
  - destruct (pull_image_version _ _ _); simpl; [by left|].
    intros [Hc|Hc]%IH; simpl in *; set_solver.
Qed.

Lemma resolve_ancestors_reaches recursive todo st :
  parent_closed app → parent_acyclic app →
  containers_to_build st ⊆ containers app →
  todo ⊆ containers app →
  ancestors_to_build st ⊆ containers app →
  ∃ st', resolve_ancestors app env recursive todo st = inl st' ∧
         ancestors_to_build st' ⊆ containers app.
Proof.
  intros Hclosed Hacyclic. revert st.
  induction todo as [|c todo IH]; intros st Hqueue Htodo Hanc; simpl; [by eauto|].
  assert (ancestors_to_build st ++ [c] ⊆ containers app) as Hanc' by set_solver.
  destruct recursive; [|apply IH; [done|set_solver|done]].
  simpl.
  destruct (dependency_sort_total (parent_edges app) (containers app)
              (node_count app) (containers_to_build st))
    as [sorted Hsorted]; [done..|].
  unfold ancestry. rewrite Hsorted. simpl.
  apply IH; [by rewrite walk_ancestors_queue|set_solver|].
  intros x [Hx|Hx]%walk_ancestors_inserted; [by apply Hanc'|].
  unfold all_but_last in Hx. rewrite !elem_of_reverse in Hx.
  apply subseteq_take in Hx.
  by apply (sorted_in_catalog _ _ _ _ Hclosed Hqueue Hsorted).
Qed.

End wellformed_facts.

Lemma ranked_acyclic {A} (edges : A → list A) (rank : A → nat) :
  (∀ a b, b ∈ edges a → (rank b < rank a)%nat) →
  ∀ c, ¬ tc (fun a b => b ∈ edges a) c c.
Proof.
  intros Hrank c Hc.
  assert (∀ a b, tc (fun a b => b ∈ edges a) a b → (rank b < rank a)%nat) as Hdown.
  { induction 1 as [a b Hab|a b d Hab _ IH]; [by apply Hrank|].
    apply Hrank in Hab. lia. }
  apply Hdown in Hc. lia.
Qed.

(** X23. On a catalog whose build parents and runtime dependencies stay
    in the catalog and have no cycle, a request that names catalog
    containers never ends in [CycleError]: each of the three sorts returns,
    the final queue is executed, and the command returns or exits with
    code 1.  The bound the sorts are given, the number of catalog
    containers, is enough for them. *)
Theorem well_formed_build_executes app env request cache recursive verbose :
  WellFormed.parent_closed app → WellFormed.parent_acyclic app →
  runtime_closed app → runtime_acyclic app →
  WellFormed.request_in_catalog app request →
  let r := build app env request cache recursive verbose in
  outcome r = Done ∨ outcome r = Exit 1.
Proof.
  intros Hpc Hpa Hrc Hra Hrequest r. subst r. unfold build.
  assert ((expand app (_get_providers app) request).1 ⊆ containers app) as Hseeds.
  { intros c [_ Hc]%elem_of_expand_pull. by apply profile_seed_catalog. }
  destruct (dependency_sort_total (dependencies app) (containers app)
              (node_count app) (expand app (_get_providers app) request).1)
    as [l Hl]; [done..|].
  unfold containers_to_pull. rewrite Hl.
  set (st1 := foldl (pull_step env) _ l).
  assert (containers_to_build st1 ⊆ containers app) as Hqueue.
  { apply pull_phase_in_catalog.
    - by eapply sorted_in_catalog.
    - simpl. rewrite expand_named. by apply named_in_catalog. }
  destruct (resolve_ancestors_reaches app env recursive (containers_to_build st1) st1)
    as (st & -> & Hanc); [done..| |].
  { subst st1. rewrite pull_phase_ancestors. by intros ? ?%elem_of_nil. }
  destruct (dependency_sort_total (parent_edges app) (containers app)
              (node_count app) (ancestors_to_build st))
    as [sorted Hsorted]; [done..|].
  unfold final_order. rewrite Hsorted. simpl.
  destruct (execute_shape app env cache verbose st
              (filter (fun c => c ∈ ancestors_to_build st) sorted))
    as (_ & _ & _ & _ & [(-> & _)|(-> & _)]); auto.
Qed.

Lemma well_formed_build_executes_witness :
  let r := build Examples.chain_app
                 (Examples.fixed_env (fun _ => false) (fun _ => true) [])
                 [Named Examples.cC] true true true in
  outcome r = Done ∨ outcome r = Exit 1.
Proof.
  apply (well_formed_build_executes Examples.chain_app
           (Examples.fixed_env (fun _ => false) (fun _ => true) [])
           [Named Examples.cC] true true true).
  - intros c p _ Hp. unfold parent_edges in Hp. simpl in Hp.
    unfold Examples.chain_parent in Hp.
    repeat case_decide; simpl in Hp;
      first [by apply elem_of_nil in Hp
            |apply list_elem_of_singleton in Hp as ->;
             apply (bool_decide_unpack _); vm_compute; reflexivity].
  - refine (ranked_acyclic _
              (fun c => if decide (c = Examples.cC) then 2%nat
                        else if decide (c = Examples.cB) then 1%nat else 0%nat) _).
    intros a b Hb. unfold parent_edges in Hb. simpl in Hb.
    unfold Examples.chain_parent in Hb.
    repeat case_decide; simpl in Hb; try (by apply elem_of_nil in Hb);
      apply list_elem_of_singleton in Hb; subst; try lia; discriminate.
  - by intros c d _ ?%elem_of_nil.
  - refine (ranked_acyclic _ (fun _ => 0%nat) _). by intros a b ?%elem_of_nil.
  - intros c [= ->]%list_elem_of_singleton.
    apply (bool_decide_unpack _). vm_compute. reflexivity.
Defined.
